(** * OSMtoSQLiteCoordinatesExtractor: the address index and its two resolvers

    A shallow embedding of [main.py] (ingestion), [find_coordinates.py]
    (address string to point) and [address_finder.py] (point to address).

    Modelling conventions.
    - A Python [str] is a list of Unicode code points ([list N]).
    - A Python [float] / SQLite [REAL] is an exact rational ([Q]); rounding
      is outside the model.
    - A SQLite file is a record of its four possible tables, each absent or a
      list of rows in rowid order.  The file system is a finite map from
      paths to such files.  Paths are written relative to [ROOT_FOLDERPATH]:
      [os.path.relpath (p, ROOT_FOLDERPATH)] and
      [os.path.join (ROOT_FOLDERPATH, p)] are the identity on them.
    - [datetime.datetime.now ()] is read through a clock [nat -> pystr]: the
      [k]-th call of the slug function in a run sees [clk k].
    - [str.lower] and [str.isspace] belong to the interpreter, not to the
      repository; they are parameters of the development.
    - An OSM extract is what the reader shows to a handler: its ways and its
      nodes, each in file order.  A way is its tag dict and its node
      references; a node is its id and its location, absent when
      [location.valid ()] is false. *)

From Stdlib Require Import QArith Qminmax String Ascii Lia.
From stdpp Require Import gmap list.

(** ** Strings *)

Abbreviation pystr := (list N).

(** A literal of ASCII characters as a code-point list. *)
Definition str (s : string) : pystr := map N_of_ascii (list_ascii_of_string s).

Definition pystr_eqb (a b : pystr) : bool := bool_decide (a = b).

(** SQLite's built-in [lower()] folds the 26 ASCII capitals only. *)
Definition sqlite_lower_char (c : N) : N :=
  if ((65 <=? c) && (c <=? 90))%N then (c + 32)%N else c.

Definition sqlite_lower (s : pystr) : pystr := map sqlite_lower_char s.

(** [str.lower] on text made of ASCII characters only: the same folding. *)
Definition ascii_lower (s : pystr) : pystr := map sqlite_lower_char s.

(** [str.isspace] on ASCII characters: TAB, LF, VT, FF, CR, FS, GS, RS, US
    and the space. *)
Definition ascii_isspace (c : N) : bool :=
  ((9 <=? c) && (c <=? 13) || (28 <=? c) && (c <=? 32))%N.

(** [posixpath.join] for two components. *)
Definition path_join (a b : pystr) : pystr :=
  match b with
  | 47%N :: _ => b
  | _ =>
      match last a with
      | None => b
      | Some 47%N => a ++ b
      | Some _ => a ++ 47%N :: b
      end
  end.

(** [str.split (sep)] for a one-character separator. *)
Fixpoint split (sep : N) (s : pystr) : list pystr :=
  match s with
  | [] => [[]]
  | c :: s' =>
      if (c =? sep)%N then [] :: split sep s'
      else match split sep s' with
           | p :: ps => (c :: p) :: ps
           | [] => [[c]]
           end
  end.

(** [sep.join (parts)]. *)
Fixpoint join (sep : pystr) (parts : list pystr) : pystr :=
  match parts with
  | [] => []
  | [p] => p
  | p :: ps => p ++ sep ++ join sep ps
  end.

(** ** Tables, files and the file system *)

(** A row of [addresses (street TEXT, housenumber TEXT, latitude REAL,
    longitude REAL)]. *)
Record address_row := AddressRow {
  street : pystr;
  housenumber : pystr;
  latitude : Q;
  longitude : Q
}.

(** A row of [localities], [regions] or [countries]: a name, the relative
    path of the child, and four nullable [REAL] bounds. *)
Record inventory_row := InventoryRow {
  row_name : pystr;
  row_path : pystr;
  min_lat : option Q;
  max_lat : option Q;
  min_lon : option Q;
  max_lon : option Q
}.

Definition bounds : Type := option Q * option Q * option Q * option Q.

Record database := Database {
  addresses : option (list address_row);
  localities : option (list inventory_row);
  regions : option (list inventory_row);
  countries : option (list inventory_row)
}.

Definition empty_database : database := Database None None None None.

Abbreviation filesystem := (gmap pystr database).

(** [sqlite3.connect (path)] creates the file when it does not exist. *)
Definition connect (path : pystr) (fs : filesystem) : filesystem :=
  match fs !! path with
  | Some _ => fs
  | None => <[path := empty_database]> fs
  end.

Definition read_db (fs : filesystem) (path : pystr) : database :=
  default empty_database (fs !! path).

Definition set_addresses (t : list address_row) (d : database) : database :=
  Database (Some t) (localities d) (regions d) (countries d).
Definition set_localities (t : list inventory_row) (d : database) : database :=
  Database (addresses d) (Some t) (regions d) (countries d).
Definition set_regions (t : list inventory_row) (d : database) : database :=
  Database (addresses d) (localities d) (Some t) (countries d).
Definition set_countries (t : list inventory_row) (d : database) : database :=
  Database (addresses d) (localities d) (regions d) (Some t).

(** [CREATE TABLE IF NOT EXISTS t]: the rows of [t] afterwards. *)
Definition create_if_not_exists {R} (t : option (list R)) : list R := default [] t.

(** SQLite's [MIN] and [MAX] aggregates skip NULL and give NULL on no value. *)
Definition aggregate_step (pick : Q -> Q -> Q) (acc x : option Q) : option Q :=
  match acc, x with
  | _, None => acc
  | None, Some v => Some v
  | Some a, Some v => Some (pick a v)
  end.

Definition sql_aggregate (pick : Q -> Q -> Q) (col : list (option Q)) : option Q :=
  fold_left (aggregate_step pick) col None.

(** The non-NULL values of a column. *)
Definition values (col : list (option Q)) : list Q := omap id col.

Definition sql_min : list (option Q) -> option Q := sql_aggregate Qmin.
Definition sql_max : list (option Q) -> option Q := sql_aggregate Qmax.

(** [SELECT MIN(latitude), MAX(latitude), MIN(longitude), MAX(longitude)
    FROM addresses]. *)
Definition select_address_bounds (t : list address_row) : bounds :=
  (sql_min (map (fun r => Some (latitude r)) t),
   sql_max (map (fun r => Some (latitude r)) t),
   sql_min (map (fun r => Some (longitude r)) t),
   sql_max (map (fun r => Some (longitude r)) t)).

(** [SELECT MIN(min_lat), MAX(max_lat), MIN(min_lon), MAX(max_lon) FROM t]
    for an inventory table [t]. *)
Definition select_inventory_bounds (t : list inventory_row) : bounds :=
  (sql_min (map min_lat t), sql_max (map max_lat t),
   sql_min (map min_lon t), sql_max (map max_lon t)).

Definition bounds_min_lat (b : bounds) : option Q := b.1.1.1.

Definition row_of_bounds (name path : pystr) (b : bounds) : inventory_row :=
  let '(a, b, c, d) := b in InventoryRow name path a b c d.

(** [INSERT OR REPLACE]: rows that collide with the new one on a PRIMARY KEY
    or UNIQUE constraint of the table are deleted, then the row is added.
    [unique_keys] lists the constraints the table was created with. *)
Definition insert_or_replace {R} (unique_keys : list (R -> R -> bool))
    (t : list R) (r : R) : list R :=
  filter (fun old => negb (existsb (fun same => same old r) unique_keys)) t ++ [r].

(** [CREATE TABLE regions (...)] and [CREATE TABLE countries (...)] in
    [main.py] declare six plain columns and no constraint. *)
Definition inventory_unique_keys : list (inventory_row -> inventory_row -> bool) := [].

(** How a call ends: it returns, the process exits through [sys.exit], or a
    [sqlite3.OperationalError] (a [SELECT] on a missing table) goes
    uncaught. *)
Inductive outcome (A : Type) : Type :=
| Return (a : A)
| SysExit (code : Z)
| OperationalError.
Arguments Return {A} a.
Arguments SysExit {A} code.
Arguments OperationalError {A}.

(** An address collected from a way: street, house number, node references. *)
Definition way_address : Type := pystr * pystr * list Z.

(** [collector.addresses]: a dict from locality name to its addresses, in
    insertion order. *)
Definition address_dict : Type := list (pystr * list way_address).

(** ** The extract and the two visitors of main.py *)

(** What the streaming reader shows of a way (its tags and node references)
    and of a node (its id, and its location when [location.valid ()]). *)
Record Way := MkWay {
  w_tags : gmap pystr pystr;
  w_nodes : list Z
}.

Record Node := MkNode {
  n_id : Z;
  n_location : option (Q * Q)
}.

(** [if k not in d: d[k] = []] followed by [d[k].append (v)] on a dict kept
    in insertion order. *)
Fixpoint dict_append {A} (k : pystr) (v : A) (d : list (pystr * list A))
    : list (pystr * list A) :=
  match d with
  | [] => [(k, [v])]
  | (k', vs) :: rest =>
      if decide (k' = k) then (k', vs ++ [v]) :: rest
      else (k', vs) :: dict_append k v rest
  end.

(** [d.get (k)] on such a dict. *)
Fixpoint dict_get {A} (k : pystr) (d : list (pystr * A)) : option A :=
  match d with
  | [] => None
  | (k', v) :: rest => if decide (k' = k) then Some v else dict_get k rest
  end.

Module AddressCollector.

Record t := Build {
  node_refs : gset Z;
  addresses : address_dict;
  specific_locality : option pystr;
  total_ways : nat;
  processed_ways : nat
}.

(** [__init__]. *)
Definition init (specific_locality : option pystr) : t :=
  Build ∅ [] specific_locality 0 0.

(** [self.specific_locality and locality != self.specific_locality]: [None]
    and the empty string are false. *)
Definition rejects (specific_locality : option pystr) (locality : pystr) : bool :=
  match specific_locality with
  | Some (c :: sl) => bool_decide (locality <> c :: sl)
  | _ => false
  end.

Definition way (self : t) (w : Way) : t :=
  let total := S (total_ways self) in
  match w_tags w !! str "addr:street", w_tags w !! str "addr:housenumber",
        w_tags w !! str "addr:city" with
  | Some street, Some housenumber, Some locality =>
      if rejects (specific_locality self) locality
      then Build (node_refs self) (addresses self) (specific_locality self)
             total (processed_ways self)
      else Build (node_refs self ∪ list_to_set (w_nodes w))
             (dict_append locality (street, housenumber, w_nodes w) (addresses self))
             (specific_locality self) total (S (processed_ways self))
  | _, _, _ =>
      Build (node_refs self) (addresses self) (specific_locality self)
        total (S (processed_ways self))
  end.

(** [apply_file]: the reader calls [way] once per way, in file order. *)
Definition apply_file (self : t) (ways : list Way) : t := fold_left way ways self.

End AddressCollector.

Module NodeCollector.

Record t := Build {
  node_refs : gset Z;
  nodes_dict : gmap Z (Q * Q);
  total_nodes : nat;
  processed_nodes : nat
}.

(** [__init__]. *)
Definition init (node_refs : gset Z) (nodes_dict : gmap Z (Q * Q)) : t :=
  Build node_refs nodes_dict (size node_refs) 0.

Definition node (self : t) (n : Node) : t :=
  match n_location n with
  | Some location =>
      if bool_decide (n_id n ∈ node_refs self)
      then Build (node_refs self) (<[n_id n := location]> (nodes_dict self))
             (total_nodes self) (S (processed_nodes self))
      else self
  | None => self
  end.

Definition apply_file (self : t) (nodes : list Node) : t := fold_left node nodes self.

End NodeCollector.

(** ** The URL of the extract *)

Definition startswith (s prefix : pystr) : bool :=
  bool_decide (take (length prefix) s = prefix).

(** [s.replace (old, '')] for a non-empty [old]: its occurrences, found left
    to right without overlap, are dropped.  [skip] counts the characters of
    the occurrence being dropped that are still to come. *)
Fixpoint remove_from (old : pystr) (skip : nat) (s : pystr) : pystr :=
  match s with
  | [] => []
  | c :: s' =>
      match skip with
      | S n => remove_from old n s'
      | O =>
          if startswith s old then remove_from old (length old - 1) s'
          else c :: remove_from old 0 s'
      end
  end.

Definition remove_all (old s : pystr) : pystr := remove_from old 0 s.

(** [parse_country_and_region_from_url], on [urlparse (url).path]. *)
Definition parse_country_and_region_from_url (path : pystr) : outcome (pystr * pystr) :=
  match split 47%N path with
  | _ :: europe :: country :: region :: _ =>
      if bool_decide (europe = str "europe")
      then Return (country, remove_all (str "-latest.osm.pbf") region)
      else SysExit 1
  | _ => SysExit 1
  end.

(** ** Sample data used by the closed examples *)

Definition t0 : pystr := str "20250101_120000".
Definition t1 : pystr := str "20250101_120001".
Definition clock_fixed : nat -> pystr := fun _ => t0.

Definition sample_nodes : gmap Z (Q * Q) :=
  <[1%Z := (52 # 1, 21 # 1)]> (<[2%Z := (54 # 1, 23 # 1)]> (<[3%Z := (50 # 1, 19 # 1)]> ∅)).

(** Two localities whose names differ in case only; node 7 is not in
    [sample_nodes]. *)
Definition sample_addresses : address_dict :=
  [(str "Lodz", [(str "Piotrkowska", str "1", [1; 2]%Z);
                 (str "Narutowicza", str "5", [7]%Z)]);
   (str "lodz", [(str "Zielona", str "3", [3]%Z)])].

(** The localities of a second region, one of them named like a locality
    of [sample_addresses]. *)
Definition second_region_addresses : address_dict :=
  [(str "Warszawa", [(str "Marszalkowska", str "10", [1; 3]%Z)]);
   (str "Lodz", [(str "Nowa", str "2", [2]%Z)])].

(** A locality whose name has no character in [a-z_], with one address, and
    the same locality with another; a clock that moves on by a second after
    the first [n] readings. *)
Definition nameless_first : address_dict := [(str "123", [(str "Zielona", str "3", [3]%Z)])].
Definition nameless_second : address_dict :=
  [(str "123", [(str "Piotrkowska", str "1", [1]%Z)])].
Definition clock_ticks_after (n : nat) : nat -> pystr :=
  fun k => if (k <? n)%nat then t0 else t1.


Definition sample_name : pystr := str "Nowy " ++ [322; 243; 100; 378]%N ++ str " 2".

Definition sample_table_path : pystr := str "results/poland/lodzkie/localities/lodz.sqlite".

Definition sample_table : list address_row :=
  [AddressRow (str "Piotrkowska") (str "1") (52 # 1) (21 # 1);
   AddressRow (str "Zielona") (str "3") (50 # 1) (19 # 1)].

Definition sample_fs : gmap pystr database :=
  {[ sample_table_path := Database (Some sample_table) None None None ]}.

(** An extract: a way of Lodz, a way without address tags, a way of
    Pabianice, a second way of Lodz; node 2 has no valid location, node 1
    is shown twice and node 7 is not shown. *)
Definition address_tags (street housenumber city : pystr) : gmap pystr pystr :=
  <[str "addr:street" := street]>
    (<[str "addr:housenumber" := housenumber]> (<[str "addr:city" := city]> ∅)).

Definition sample_ways : list Way :=
  [MkWay (address_tags (str "Piotrkowska") (str "1") (str "Lodz")) [1; 2]%Z;
   MkWay (<[str "building" := str "yes"]> ∅) [4]%Z;
   MkWay (address_tags (str "Zamkowa") (str "3") (str "Pabianice")) [3]%Z;
   MkWay (address_tags (str "Narutowicza") (str "5") (str "Lodz")) [7; 2]%Z].

Definition sample_extract_nodes : list Node :=
  [MkNode 1 (Some (52 # 1, 21 # 1)); MkNode 2 None; MkNode 3 (Some (50 # 1, 19 # 1));
   MkNode 4 (Some (51 # 1, 20 # 1)); MkNode 1 (Some (53 # 1, 22 # 1))].

Section Geocoder.

(** [str.lower] and [str.isspace]. *)
Variable lower : pystr -> pystr.
Variable isspace : N -> bool.

(** ** main.py *)

Definition RESULTS_FOLDERPATH : pystr := str "results".

(** One iteration of the loop of
    [convert_polish_locality_name_to_restricted_in_filesystem]: [out] is
    [output_locality_name], [c] the current character. *)
Definition slug_step (out : pystr) (c : N) : pystr :=
  if (c =? 261)%N then out ++ [97%N]                    (* a-ogonek *)
  else if (c =? 32)%N then out ++ [95%N]                (* space *)
  else if (c =? 263)%N then out ++ [99%N]               (* c-acute *)
  else if (c =? 281)%N then out ++ [101%N]              (* e-ogonek *)
  else if (c =? 322)%N then out ++ [108%N]              (* l-stroke *)
  else if (c =? 243)%N then out ++ [111%N]              (* o-acute *)
  else if (c =? 347)%N then out ++ [115%N]              (* s-acute *)
  else if existsb (N.eqb c) [378%N; 380%N] then out ++ [122%N]   (* z-acute, z-dot *)
  else if negb (existsb (N.eqb c)
                  (str "a" ++ [261%N] ++ str "bcdefghijklmnopqrstuvwxyz_"))
       then out                                          (* continue *)
  else out ++ [c].

Definition noname (dtmodifier : pystr) : pystr := str "noname_" ++ dtmodifier.

Definition convert_polish_locality_name_to_restricted_in_filesystem
    (dtmodifier : pystr) (raw_locality_name : pystr) : pystr :=
  match raw_locality_name with
  | [] => noname dtmodifier
  | _ =>
      match fold_left slug_step (lower raw_locality_name) [] with
      | [] => noname dtmodifier
      | output_locality_name => output_locality_name
      end
  end.

(** The slug as the specification words it: lowercase, transliterate the
    eight diacritics, turn spaces into underscores, keep only [a-z_]. *)
Definition transliterate (c : N) : N :=
  if (c =? 261)%N then 97%N
  else if (c =? 263)%N then 99%N
  else if (c =? 281)%N then 101%N
  else if (c =? 322)%N then 108%N
  else if (c =? 243)%N then 111%N
  else if (c =? 347)%N then 115%N
  else if (c =? 378)%N then 122%N
  else if (c =? 380)%N then 122%N
  else c.

Definition space_to_underscore (c : N) : N := if (c =? 32)%N then 95%N else c.

Definition in_a_z_underscore (c : N) : bool :=
  ((97 <=? c) && (c <=? 122) || (c =? 95))%N.

Definition slug_spec (s : pystr) : pystr :=
  List.filter in_a_z_underscore
    (map space_to_underscore (map transliterate (lower s))).

(** [[nodes_dict.get(ref) for ref in node_refs if ref in nodes_dict]]. *)
Definition valid_nodes (nodes_dict : gmap Z (Q * Q)) (node_refs : list Z) : list (Q * Q) :=
  omap (fun ref => nodes_dict !! ref) node_refs.

(** Python's [sum]: left to right, starting from 0. *)
Definition py_sum (l : list Q) : Q := fold_left Qplus l 0%Q.

Definition py_len {A} (l : list A) : Q := inject_Z (Z.of_nat (length l)).

(** The body of the inner loop of [process_addresses_to_db] for one address:
    the rows of [addresses] after it, from the rows [t] before it. *)
Definition insert_address (nodes_dict : gmap Z (Q * Q))
    (t : list address_row) (a : way_address) : list address_row :=
  let '(street, housenumber, node_refs) := a in
  let valid := valid_nodes nodes_dict node_refs in
  match valid with
  | [] => t
  | _ =>
      let lat := (py_sum (map fst valid) / py_len valid)%Q in
      let lon := (py_sum (map snd valid) / py_len valid)%Q in
      t ++ [AddressRow street housenumber lat lon]
  end.

Definition locality_db_path (output_dir locality_filename : pystr) : pystr :=
  path_join (path_join output_dir (str "localities")) (locality_filename ++ str ".sqlite").

Definition inventory_path (dir : pystr) : pystr := path_join dir (str "inventory.sqlite").

(** [process_addresses_to_db]; [k] counts the clock readings made so far. *)
Fixpoint process_addresses_to_db (clk : nat -> pystr) (k : nat)
    (addrs : address_dict) (nodes_dict : gmap Z (Q * Q)) (output_dir : pystr)
    (fs : filesystem) : filesystem :=
  match addrs with
  | [] => fs
  | (locality, locality_addresses) :: rest =>
      let locality_filename :=
        convert_polish_locality_name_to_restricted_in_filesystem (clk k) locality in
      let db_path := locality_db_path output_dir locality_filename in
      let d := read_db fs db_path in
      let t := fold_left (insert_address nodes_dict) locality_addresses
                 (create_if_not_exists (addresses d)) in
      process_addresses_to_db clk (S k) rest nodes_dict output_dir
        (<[db_path := set_addresses t d]> fs)
  end.

(** The loop of [create_inventory_db] at [level='region'] (the only level
    [main.py] calls it with).  A locality file without an [addresses] table
    makes the [SELECT] raise; the handler logs and continues. *)
Fixpoint create_inventory_rows (clk : nat -> pystr) (k : nat)
    (output_dir : pystr) (addrs : address_dict) (fs : filesystem) : filesystem :=
  match addrs with
  | [] => fs
  | (name, _) :: rest =>
      let locality_filename :=
        convert_polish_locality_name_to_restricted_in_filesystem (clk k) name in
      let db_path := locality_db_path output_dir locality_filename in
      let fs1 := connect db_path fs in
      match addresses (read_db fs1 db_path) with
      | None => create_inventory_rows clk (S k) output_dir rest fs1
      | Some t =>
          let b := select_address_bounds t in
          match bounds_min_lat b with
          | None => create_inventory_rows clk (S k) output_dir rest fs1
          | Some _ =>
              let inv := read_db fs1 (inventory_path output_dir) in
              let rows := create_if_not_exists (localities inv)
                            ++ [row_of_bounds name db_path b] in
              create_inventory_rows clk (S k) output_dir rest
                (<[inventory_path output_dir := set_localities rows inv]> fs1)
          end
      end
  end.

Definition create_inventory_db (clk : nat -> pystr) (k : nat)
    (output_dir : pystr) (addrs : address_dict) (fs : filesystem) : filesystem :=
  let inv := read_db fs (inventory_path output_dir) in
  create_inventory_rows clk k output_dir addrs
    (<[inventory_path output_dir :=
         set_localities (create_if_not_exists (localities inv)) inv]> fs).

Definition update_country_inventory (country_dir region : pystr)
    (region_bounds : bounds) (fs : filesystem) : filesystem :=
  let inv := read_db fs (inventory_path country_dir) in
  let rel_region_dir := path_join country_dir region in
  <[inventory_path country_dir :=
      set_regions (insert_or_replace inventory_unique_keys
                     (create_if_not_exists (regions inv))
                     (row_of_bounds region rel_region_dir region_bounds)) inv]> fs.

Definition update_global_inventory (country country_dir : pystr)
    (country_bounds : bounds) (fs : filesystem) : filesystem :=
  let inv := read_db fs (inventory_path RESULTS_FOLDERPATH) in
  <[inventory_path RESULTS_FOLDERPATH :=
      set_countries (insert_or_replace inventory_unique_keys
                       (create_if_not_exists (countries inv))
                       (row_of_bounds country country_dir country_bounds)) inv]> fs.

(** The rows a [SELECT ... FROM t] on an existing table of [path] reads. *)
Definition rows_of {R} (tbl : database -> option (list R)) (fs : filesystem)
    (path : pystr) : list R :=
  create_if_not_exists (tbl (read_db fs path)).

(** The body of [__main__] from "Write to locality databases" on, for the
    country and region parsed from the URL and the two collected dicts. *)
Definition ingest (clk : nat -> pystr) (country region : pystr)
    (addrs : address_dict) (nodes_dict : gmap Z (Q * Q)) (fs : filesystem) : filesystem :=
  let country_dir := path_join RESULTS_FOLDERPATH country in
  let output_dir := path_join country_dir region in
  let fs1 := process_addresses_to_db clk 0 addrs nodes_dict output_dir fs in
  let fs2 := create_inventory_db clk (length addrs) output_dir addrs fs1 in
  let region_bounds :=
    select_inventory_bounds (rows_of localities fs2 (inventory_path output_dir)) in
  match bounds_min_lat region_bounds with
  | None => fs2
  | Some _ =>
      let fs3 := update_country_inventory country_dir region region_bounds fs2 in
      let country_bounds :=
        select_inventory_bounds (rows_of regions fs3 (inventory_path country_dir)) in
      match bounds_min_lat country_bounds with
      | None => fs3
      | Some _ => update_global_inventory country country_dir country_bounds fs3
      end
  end.

(** ** find_coordinates.py *)

(** [str.strip ()]. *)
Fixpoint lstrip (s : pystr) : pystr :=
  match s with
  | c :: s' => if isspace c then lstrip s' else s
  | [] => []
  end.

Definition strip (s : pystr) : pystr := reverse (lstrip (reverse (lstrip s))).

Definition parse_address (address_str : pystr)
    : outcome (pystr * pystr * pystr * pystr) :=
  match map strip (split 44%N address_str) with
  | [country; locality; street; housenumber] =>
      Return (lower country, locality, street, housenumber)
  | _ => SysExit 1
  end.

(** [SELECT ... FROM t WHERE p] followed by [fetchone ()]. *)
Definition fetchone_where {R} (p : R -> bool) (t : list R) : option R := List.find p t.

Definition find_country_dir (fs : filesystem) (country : pystr) : outcome (option pystr) :=
  match fs !! inventory_path RESULTS_FOLDERPATH with
  | None => Return None
  | Some d =>
      match countries d with
      | None => OperationalError
      | Some t =>
          match fetchone_where (fun r => pystr_eqb (sqlite_lower (row_name r)) country) t with
          | Some r => Return (Some (row_path r))
          | None => Return None
          end
      end
  end.

(** The [for region_dir in regions] loop of [find_locality_db]. *)
Fixpoint scan_regions (fs : filesystem) (locality : pystr) (region_dirs : list pystr)
    : outcome (option pystr) :=
  match region_dirs with
  | [] => Return None
  | region_dir :: rest =>
      match fs !! inventory_path region_dir with
      | None => scan_regions fs locality rest
      | Some d =>
          match localities d with
          | None => OperationalError
          | Some t =>
              match fetchone_where (fun r => pystr_eqb (row_name r) locality) t with
              | Some r => Return (Some (row_path r))
              | None => scan_regions fs locality rest
              end
          end
      end
  end.

(** [find_locality_db].  The test on the country directory is subsumed by the
    test on the inventory file inside it: both misses return [None]. *)
Definition find_locality_db (fs : filesystem) (country_dir locality : pystr)
    : outcome (option pystr) :=
  match fs !! inventory_path country_dir with
  | None => Return None
  | Some d =>
      match regions d with
      | None => OperationalError
      | Some t => scan_regions fs locality (map row_path t)
      end
  end.

Definition find_coordinates (fs : filesystem) (db_path street' housenumber' : pystr)
    : outcome (option (Q * Q)) :=
  match fs !! db_path with
  | None => Return None
  | Some d =>
      match addresses d with
      | None => OperationalError
      | Some t =>
          match fetchone_where
                  (fun r => pystr_eqb (street r) street'
                            && pystr_eqb (housenumber r) housenumber') t with
          | Some r => Return (Some (latitude r, longitude r))
          | None => Return None
          end
      end
  end.

(** The dict [get_coordinates] returns on success. *)
Record geocode := Geocode {
  g_country : pystr;
  g_locality : pystr;
  g_street : pystr;
  g_housenumber : pystr;
  g_latitude : Q;
  g_longitude : Q
}.

Definition get_coordinates (fs : filesystem) (address_str : pystr)
    : outcome (option geocode * pystr) :=
  match parse_address address_str with
  | SysExit c => SysExit c
  | OperationalError => OperationalError
  | Return (country, locality, street, housenumber) =>
      match find_country_dir fs country with
      | SysExit c => SysExit c
      | OperationalError => OperationalError
      | Return None => Return (None, str "ER - Country not found in global inventory.")
      | Return (Some country_dir) =>
          match find_locality_db fs country_dir locality with
          | SysExit c => SysExit c
          | OperationalError => OperationalError
          | Return None => Return (None, str "ER - Locality not found in country inventory.")
          | Return (Some db_path) =>
              match find_coordinates fs db_path street housenumber with
              | SysExit c => SysExit c
              | OperationalError => OperationalError
              | Return None => Return (None, str "ER - Coordinates not found for given address.")
              | Return (Some (lat, lon)) =>
                  Return (Some (Geocode country locality street housenumber lat lon),
                          str "OK - Coordinates found.")
              end
          end
      end
  end.

(** ** address_finder.py *)

(** The [distance] column of the query of [find_nearest_address]. *)
Definition distance (lat lon : Q) (r : address_row) : Q :=
  ((latitude r - lat) * (latitude r - lat) + (longitude r - lon) * (longitude r - lon))%Q.

(** [ORDER BY key LIMIT 1]: a row with the least key; among equal keys the
    model takes the earliest row. *)
Fixpoint order_by_limit_1 {R} (key : R -> Q) (t : list R) : option R :=
  match t with
  | [] => None
  | r :: rest =>
      match order_by_limit_1 key rest with
      | None => Some r
      | Some best => if Qle_bool (key r) (key best) then Some r else Some best
      end
  end.

Definition find_nearest_address (fs : filesystem) (db_path : pystr) (lat lon : Q)
    : outcome (option (pystr * pystr * Q * Q)) :=
  match fs !! db_path with
  | None => Return None
  | Some d =>
      match addresses d with
      | None => OperationalError
      | Some t =>
          match order_by_limit_1 (distance lat lon) t with
          | Some r => Return (Some (street r, housenumber r, latitude r, longitude r))
          | None => Return None
          end
      end
  end.

(** [? BETWEEN lo AND hi] in a [WHERE]: a NULL bound fails the row. *)
Definition between (x : Q) (lo hi : option Q) : bool :=
  match lo, hi with
  | Some a, Some b => Qle_bool a x && Qle_bool x b
  | _, _ => false
  end.

(** [? BETWEEN min_lat AND max_lat AND ? BETWEEN min_lon AND max_lon]. *)
Definition box_contains (lat lon : Q) (r : inventory_row) : bool :=
  between lat (min_lat r) (max_lat r) && between lon (min_lon r) (max_lon r).

(** The shared shape of [find_country], [find_region] and [find_locality]:
    the first row of the inventory table whose box contains the point. *)
Definition find_containing (tbl : database -> option (list inventory_row))
    (fs : filesystem) (inventory : pystr) (lat lon : Q)
    : outcome (option (pystr * pystr)) :=
  match fs !! inventory with
  | None => Return None
  | Some d =>
      match tbl d with
      | None => OperationalError
      | Some t =>
          match fetchone_where (box_contains lat lon) t with
          | Some r => Return (Some (row_name r, row_path r))
          | None => Return None
          end
      end
  end.

Definition find_country (fs : filesystem) (lat lon : Q) : outcome (option (pystr * pystr)) :=
  find_containing countries fs (inventory_path RESULTS_FOLDERPATH) lat lon.

Definition find_region (fs : filesystem) (country_dir : pystr) (lat lon : Q)
    : outcome (option (pystr * pystr)) :=
  find_containing regions fs (inventory_path country_dir) lat lon.

Definition find_locality (fs : filesystem) (region_dir : pystr) (lat lon : Q)
    : outcome (option (pystr * pystr)) :=
  find_containing localities fs (inventory_path region_dir) lat lon.

(** The dict [get_address] returns on success. *)
Record reverse_geocode := ReverseGeocode {
  a_country : pystr;
  a_region : pystr;
  a_locality : pystr;
  a_street : pystr;
  a_housenumber : pystr;
  a_latitude : Q;
  a_longitude : Q
}.

Definition get_address (fs : filesystem) (lat lon : Q)
    : outcome (option reverse_geocode * pystr) :=
  match find_country fs lat lon with
  | SysExit c => SysExit c
  | OperationalError => OperationalError
  | Return None =>
      Return (None, str "ER - Could not determine country for given coordinates.")
  | Return (Some (country_name, country_dir)) =>
      match find_region fs country_dir lat lon with
      | SysExit c => SysExit c
      | OperationalError => OperationalError
      | Return None =>
          Return (None, str "ER - Could not determine region for given coordinates.")
      | Return (Some (region_name, region_dir)) =>
          match find_locality fs region_dir lat lon with
          | SysExit c => SysExit c
          | OperationalError => OperationalError
          | Return None =>
              Return (None,
                      str "ER - Could not determine locality for given coordinates (city, town, village, etc).")
          | Return (Some (locality_name, db_path)) =>
              match find_nearest_address fs db_path lat lon with
              | SysExit c => SysExit c
              | OperationalError => OperationalError
              | Return None =>
                  Return (None, str "ER - Could not determine address for given coordinates.")
              | Return (Some (street, housenumber, address_lat, address_lon)) =>
                  Return (Some (ReverseGeocode country_name region_name locality_name
                                  street housenumber address_lat address_lon),
                          str "OK - Address found.")
              end
          end
      end
  end.

(** The two passes over an extract, as [__main__] chains them. *)
Definition collect_addresses (ways : list Way) : AddressCollector.t :=
  AddressCollector.apply_file (AddressCollector.init None) ways.

Definition collect_nodes (ways : list Way) (nodes : list Node) : NodeCollector.t :=
  NodeCollector.apply_file
    (NodeCollector.init (AddressCollector.node_refs (collect_addresses ways)) ∅) nodes.

(** ** Specification-side notions *)


(** The squared planar distance of the specification. *)
Definition squared_planar_distance (lat lon : Q) (r : address_row) : Q :=
  ((lat - latitude r) ^ 2 + (lon - longitude r) ^ 2)%Q.

(** [x] is the first row of [t] that satisfies [P]. *)
Definition first_match {R} (P : R -> Prop) (t : list R) (x : R) : Prop :=
  exists pre post, t = pre ++ x :: post /\ P x /\ forall y, y ∈ pre -> ~ P y.

(** The rows of a table of a file; [None] when the file or the table is
    missing. *)
Definition table_at {R} (tbl : database -> option (list R)) (fs : filesystem)
    (path : pystr) : option (list R) :=
  fs !! path ≫= tbl.



(** [m] is, as a rational, the least ([R] is [<=]) or greatest ([R] is [>=])
    element of [l]. *)
Definition extreme (R : Q -> Q -> Prop) (m : Q) (l : list Q) : Prop :=
  (exists y, y ∈ l /\ (m == y)%Q) /\ forall x, x ∈ l -> R m x.

Definition Qge' (a b : Q) : Prop := (b <= a)%Q.

(** The bounds [b] are the element-wise min/max envelope of the non-empty
    list of points [coords]. *)
Definition envelope (coords : list (Q * Q)) (b : bounds) : Prop :=
  exists lo_lat hi_lat lo_lon hi_lon,
    b = (Some lo_lat, Some hi_lat, Some lo_lon, Some hi_lon)
    /\ extreme Qle lo_lat coords.*1 /\ extreme Qge' hi_lat coords.*1
    /\ extreme Qle lo_lon coords.*2 /\ extreme Qge' hi_lon coords.*2.

(** An aggregate over a column agrees with a list of values: NULL on no
    value, their extreme otherwise. *)
Definition column_consistent (R : Q -> Q -> Prop) (agg : option Q) (l : list Q) : Prop :=
  match agg with
  | None => l = []
  | Some m => extreme R m l
  end.

(** The four aggregates over an inventory table agree with the points
    beneath it. *)
Definition consistent (coords : list (Q * Q)) (b : bounds) : Prop :=
  column_consistent Qle b.1.1.1 coords.*1 /\ column_consistent Qge' b.1.1.2 coords.*1
  /\ column_consistent Qle b.1.2 coords.*2 /\ column_consistent Qge' b.2 coords.*2.

Definition row_bounds (r : inventory_row) : bounds :=
  (min_lat r, max_lat r, min_lon r, max_lon r).

(** The points stored beneath a locality row, a region row, a country row. *)
Definition table_coordinates (fs : filesystem) (db_path : pystr) : list (Q * Q) :=
  map (fun r => (latitude r, longitude r)) (rows_of addresses fs db_path).

Definition region_coordinates (fs : filesystem) (region_dir : pystr) : list (Q * Q) :=
  rows_of localities fs (inventory_path region_dir)
    ≫= (fun r => table_coordinates fs (row_path r)).

Definition country_coordinates (fs : filesystem) (country_dir : pystr) : list (Q * Q) :=
  rows_of regions fs (inventory_path country_dir)
    ≫= (fun r => region_coordinates fs (row_path r)).

Definition run_output_dir (country region : pystr) : pystr :=
  path_join (path_join RESULTS_FOLDERPATH country) region.

(** The file [p] is pointed to by a row of the region's inventory, or by a
    row of the inventory of a region listed in the country's inventory. *)
Definition referenced (fs : filesystem) (country region p : pystr) : Prop :=
  (exists r, r ∈ rows_of localities fs (inventory_path (run_output_dir country region))
             /\ row_path r = p)
  \/ (exists r r', r ∈ rows_of regions fs
                        (inventory_path (path_join RESULTS_FOLDERPATH country))
                 /\ r' ∈ rows_of localities fs (inventory_path (row_path r))
                 /\ row_path r' = p).

(** Every locality gets the same file name from [create_inventory_db] as it
    got from [process_addresses_to_db], or else the file it was written to is
    one that no inventory row pointed to before the run.  The first holds of
    every name that needs no placeholder, and of the others when the second
    of the clock has not changed in between; the second holds of a
    placeholder file named after a moment no earlier run has seen. *)
Definition file_names_settled (clk : nat -> pystr) (country region : pystr)
    (addrs : address_dict) (fs : filesystem) : Prop :=
  forall i name las, addrs !! i = Some (name, las) ->
    convert_polish_locality_name_to_restricted_in_filesystem (clk i) name
    = convert_polish_locality_name_to_restricted_in_filesystem (clk (length addrs + i)%nat) name
    \/ ~ referenced fs country region
          (locality_db_path (run_output_dir country region)
             (convert_polish_locality_name_to_restricted_in_filesystem (clk i) name)).

(** The rows one locality's addresses add to its table. *)
Definition written_rows (nodes_dict : gmap Z (Q * Q)) (las : list way_address)
    : list address_row :=
  fold_left (insert_address nodes_dict) las [].

(** The rows [process_addresses_to_db] adds to the table of the file [q]. *)
Fixpoint rows_appended (clk : nat -> pystr) (k : nat) (addrs : address_dict)
    (nodes_dict : gmap Z (Q * Q)) (output_dir q : pystr) : list address_row :=
  match addrs with
  | [] => []
  | (locality, las) :: rest =>
      (if decide (locality_db_path output_dir
                    (convert_polish_locality_name_to_restricted_in_filesystem (clk k) locality)
                  = q)
       then written_rows nodes_dict las else [])
      ++ rows_appended clk (S k) rest nodes_dict output_dir q
  end.

(** The rows [create_inventory_db] adds to the region inventory, from the
    locality tables of [fs]. *)
Fixpoint locality_rows (clk : nat -> pystr) (k : nat) (output_dir : pystr)
    (addrs : address_dict) (fs : filesystem) : list inventory_row :=
  match addrs with
  | [] => []
  | (name, _) :: rest =>
      let db_path :=
        locality_db_path output_dir
          (convert_polish_locality_name_to_restricted_in_filesystem (clk k) name) in
      let b := select_address_bounds (rows_of addresses fs db_path) in
      match bounds_min_lat b with
      | Some _ => [row_of_bounds name db_path b]
      | None => []
      end ++ locality_rows clk (S k) output_dir rest fs
  end.

Definition has_table {R} (tbl : database -> option (list R)) (fs : filesystem)
    (path : pystr) : Prop :=
  is_Some (table_at tbl fs path).

(** The pieces of one ingestion run, as functions of its inputs: the bounds
    it computes for the region, the row it adds to the country inventory,
    the bounds it computes for the country, the row it adds to the global
    inventory. *)
Definition run_locality_rows (clk : nat -> pystr) (country region : pystr)
    (addrs : address_dict) (nodes_dict : gmap Z (Q * Q)) (fs : filesystem)
    : list inventory_row :=
  locality_rows clk (length addrs) (run_output_dir country region) addrs
    (process_addresses_to_db clk 0 addrs nodes_dict (run_output_dir country region) fs).

Definition run_region_bounds (clk : nat -> pystr) (country region : pystr)
    (addrs : address_dict) (nodes_dict : gmap Z (Q * Q)) (fs : filesystem) : bounds :=
  select_inventory_bounds
    (rows_of localities fs (inventory_path (run_output_dir country region))
     ++ run_locality_rows clk country region addrs nodes_dict fs).

Definition run_region_rows (clk : nat -> pystr) (country region : pystr)
    (addrs : address_dict) (nodes_dict : gmap Z (Q * Q)) (fs : filesystem)
    : list inventory_row :=
  let b := run_region_bounds clk country region addrs nodes_dict fs in
  match bounds_min_lat b with
  | Some _ => [row_of_bounds region (run_output_dir country region) b]
  | None => []
  end.

Definition run_country_bounds (clk : nat -> pystr) (country region : pystr)
    (addrs : address_dict) (nodes_dict : gmap Z (Q * Q)) (fs : filesystem) : bounds :=
  select_inventory_bounds
    (rows_of regions fs (inventory_path (path_join RESULTS_FOLDERPATH country))
     ++ run_region_rows clk country region addrs nodes_dict fs).

Definition run_country_rows (clk : nat -> pystr) (country region : pystr)
    (addrs : address_dict) (nodes_dict : gmap Z (Q * Q)) (fs : filesystem)
    : list inventory_row :=
  match run_region_rows clk country region addrs nodes_dict fs with
  | [] => []
  | _ =>
      let b := run_country_bounds clk country region addrs nodes_dict fs in
      match bounds_min_lat b with
      | Some _ => [row_of_bounds country (path_join RESULTS_FOLDERPATH country) b]
      | None => []
      end
  end.

(** [str.lower] folds ASCII text as [ascii_lower] does. *)
Definition lower_on_ascii : Prop :=
  forall s, Forall (fun c => (c < 128)%N) s -> lower s = ascii_lower s.

(** The address a way contributes to the collector, with its locality; [None]
    for a way that lacks one of the three tags or is of another locality than
    the one asked for. *)
Definition address_of_way (specific_locality : option pystr) (w : Way)
    : option (pystr * way_address) :=
  match w_tags w !! str "addr:street", w_tags w !! str "addr:housenumber",
        w_tags w !! str "addr:city" with
  | Some street', Some housenumber', Some locality =>
      if AddressCollector.rejects specific_locality locality then None
      else Some (locality, (street', housenumber', w_nodes w))
  | _, _, _ => None
  end.

(** The addresses of the ways of locality [L], in file order. *)
Definition addresses_of (specific_locality : option pystr) (L : pystr) (ways : list Way)
    : list way_address :=
  omap (fun w => match address_of_way specific_locality w with
                 | Some (locality, a) => if decide (locality = L) then Some a else None
                 | None => None
                 end) ways.

(** The location of the last node of id [id] that has a valid one. *)
Definition last_valid (id : Z) (nodes : list Node) : option (Q * Q) :=
  last (omap (fun n => if decide (n_id n = id) then n_location n else None) nodes).

(** All node references of all addresses of a dict. *)
Definition all_refs (d : address_dict) : list Z :=
  d ≫= (fun e => e.2 ≫= (fun a => a.2)).

(** A way the collector returns from early: it has the three tags and is of
    another locality than the one asked for. *)
Definition filtered_out (specific_locality : option pystr) (w : Way) : bool :=
  match w_tags w !! str "addr:street", w_tags w !! str "addr:housenumber",
        w_tags w !! str "addr:city" with
  | Some _, Some _, Some locality => AddressCollector.rejects specific_locality locality
  | _, _, _ => false
  end.

(** The box of an inventory row contains the point. *)
Definition in_box (lat lon : Q) (r : inventory_row) : Prop :=
  exists lo_lat hi_lat lo_lon hi_lon,
    row_bounds r = (Some lo_lat, Some hi_lat, Some lo_lon, Some hi_lon)
    /\ (lo_lat <= lat)%Q /\ (lat <= hi_lat)%Q /\ (lo_lon <= lon)%Q /\ (lon <= hi_lon)%Q.

(** [x] is the first row of [t] at the least squared planar distance from
    the point. *)
Definition nearest (lat lon : Q) (t : list address_row) (x : address_row) : Prop :=
  first_match
    (fun r => forall r', r' ∈ t ->
       (squared_planar_distance lat lon r <= squared_planar_distance lat lon r')%Q) t x.

(** The reverse resolution: at each level the first row of the inventory
    whose box contains the point, followed without looking back, and in the
    locality's table the nearest row. *)
Definition reverse_resolution (fs : filesystem) (lat lon : Q) (a : reverse_geocode) : Prop :=
  exists G crow Rg rrow L lrow A arow,
    table_at countries fs (inventory_path RESULTS_FOLDERPATH) = Some G
    /\ first_match (in_box lat lon) G crow
    /\ table_at regions fs (inventory_path (row_path crow)) = Some Rg
    /\ first_match (in_box lat lon) Rg rrow
    /\ table_at localities fs (inventory_path (row_path rrow)) = Some L
    /\ first_match (in_box lat lon) L lrow
    /\ table_at addresses fs (row_path lrow) = Some A
    /\ nearest lat lon A arow
    /\ a = ReverseGeocode (row_name crow) (row_name rrow) (row_name lrow)
             (street arow) (housenumber arow) (latitude arow) (longitude arow).

(** * Properties *)

(** ** The slug *)

Lemma slug_step_spec (out : pystr) (c : N) :
  slug_step out c
  = out ++ List.filter in_a_z_underscore [space_to_underscore (transliterate c)].
Proof.
  unfold slug_step, transliterate, space_to_underscore, in_a_z_underscore.
  let l := eval vm_compute in (str "a" ++ [261%N] ++ str "bcdefghijklmnopqrstuvwxyz_") in
  change (str "a" ++ [261%N] ++ str "bcdefghijklmnopqrstuvwxyz_") with l.
  cbn [existsb].
  repeat match goal with
         | |- context [N.eqb c ?k] =>
             destruct (N.eqb_spec c k) as [->|?]; [now rewrite ?app_nil_r|]
         end.
  cbn.
  destruct (N.leb_spec 97 c), (N.leb_spec c 122), (N.eqb_spec c 95);
    cbn; rewrite ?app_nil_r; try reflexivity; lia.
Qed.

Lemma slug_loop_spec (l out : pystr) :
  fold_left slug_step l out
  = out ++ List.filter in_a_z_underscore (map space_to_underscore (map transliterate l)).
Proof.
  revert out. induction l as [|c l IH]; intros out; cbn [fold_left map].
  - now rewrite app_nil_r.
  - rewrite IH, slug_step_spec. cbn [List.filter].
    destruct (in_a_z_underscore _); cbn; now rewrite <- ?app_assoc, ?app_nil_r.
Qed.

Lemma slug_loop_is_spec (s : pystr) : fold_left slug_step (lower s) [] = slug_spec s.
Proof. apply slug_loop_spec. Qed.

Lemma noname_nonempty (dt : pystr) : noname dt <> [].
Proof. discriminate. Qed.

Lemma noname_inj (dt1 dt2 : pystr) : noname dt1 = noname dt2 -> dt1 = dt2.
Proof. unfold noname. apply app_inv_head. Qed.

Abbreviation slug := convert_polish_locality_name_to_restricted_in_filesystem (only parsing).

(** The slug of a name that needs no placeholder. *)
Lemma slug_regular (dt s : pystr) :
  s <> [] -> slug_spec s <> [] -> slug dt s = slug_spec s.
Proof.
  intros Hs Hf. unfold convert_polish_locality_name_to_restricted_in_filesystem.
  rewrite slug_loop_is_spec.
  destruct s; [congruence|]. now destruct (slug_spec _).
Qed.

(** The slug of a name that does. *)
Lemma slug_placeholder (dt s : pystr) :
  s = [] \/ slug_spec s = [] -> slug dt s = noname dt.
Proof.
  intros H. unfold convert_polish_locality_name_to_restricted_in_filesystem.
  rewrite slug_loop_is_spec.
  destruct s; [reflexivity|]. destruct H as [H|H]; [discriminate|]. now rewrite H.
Qed.

(** C7.  The slug is never empty; when the lowercased, transliterated,
    space-to-underscore, [a-z_]-filtered name is non-empty the slug is that
    string; for an empty name, or a name nothing of which survives, it is
    ["noname_"] followed by the timestamp. *)
Theorem slug_functional_correctness (dt s : pystr) :
  slug dt s <> []
  /\ (s <> [] -> slug_spec s <> [] -> slug dt s = slug_spec s)
  /\ (s = [] \/ slug_spec s = [] -> slug dt s = str "noname_" ++ dt).
Proof.
  split; [|split].
  - destruct s as [|c s'] eqn:E.
    + apply noname_nonempty.
    + rewrite <- E. destruct (slug_spec s) eqn:F.
      * rewrite slug_placeholder by now right. apply noname_nonempty.
      * rewrite slug_regular; subst; congruence.
  - apply slug_regular.
  - apply slug_placeholder.
Qed.

(** C8, amended.  The slug depends on the clock only through the
    placeholder: a name with a non-empty filtered form has the same slug at
    any two readings, and a name that needs the placeholder has the same
    slug at two readings exactly when the readings are equal. *)
Theorem slug_determinism (dt1 dt2 s : pystr) :
  (s <> [] -> slug_spec s <> [] -> slug dt1 s = slug dt2 s)
  /\ (s = [] \/ slug_spec s = [] -> (slug dt1 s = slug dt2 s <-> dt1 = dt2)).
Proof.
  split.
  - intros Hs Hf. now rewrite !slug_regular.
  - intros H. rewrite !slug_placeholder by assumption. split.
    + apply noname_inj.
    + now intros ->.
Qed.


(** ** The representative point of an address *)



Lemma valid_nodes_none (nodes_dict : gmap Z (Q * Q)) (node_refs : list Z) :
  valid_nodes nodes_dict node_refs = []
  <-> forall ref, ref ∈ node_refs -> nodes_dict !! ref = None.
Proof.
  unfold valid_nodes. induction node_refs as [|r l IH]; cbn.
  - split; [intros _ ref H; inversion H | reflexivity].
  - destruct (nodes_dict !! r) eqn:E; cbn.
    + split; [discriminate|]. intros H. specialize (H r (list_elem_of_here _ _)). congruence.
    + rewrite IH. split.
      * intros H ref Hin. apply elem_of_cons in Hin as [->|Hin]; auto.
      * intros H ref Hin. apply H. now apply list_elem_of_further.
Qed.


(** ** The nearest address *)

Lemma distance_is_squared_planar (lat lon : Q) (r : address_row) :
  (distance lat lon r == squared_planar_distance lat lon r)%Q.
Proof. unfold distance, squared_planar_distance. cbn. ring. Qed.

Lemma order_by_limit_1_least {R} (key : R -> Q) (t : list R) :
  t <> [] ->
  exists r, order_by_limit_1 key t = Some r /\ r ∈ t
            /\ forall r', r' ∈ t -> (key r <= key r')%Q.
Proof.
  induction t as [|x t IH]; [congruence|]. intros _. cbn.
  destruct t as [|y t'].
  - exists x. cbn. split; [reflexivity|]. split; [left|].
    intros r' Hr'. apply list_elem_of_singleton in Hr' as ->. apply Qle_refl.
  - destruct IH as (b & Hb & Hin & Hmin); [discriminate|]. rewrite Hb.
    destruct (Qle_bool (key x) (key b)) eqn:E.
    + exists x. split; [reflexivity|]. split; [left|].
      apply Qle_bool_iff in E. intros r' Hr'.
      apply elem_of_cons in Hr' as [->|Hr']; [apply Qle_refl|].
      eapply Qle_trans; [exact E | now apply Hmin].
    + exists b. split; [reflexivity|]. split; [now right|].
      intros r' Hr'. apply elem_of_cons in Hr' as [->|Hr']; [|now apply Hmin].
      apply Qlt_le_weak, Qnot_le_lt. intros Hle.
      apply Qle_bool_iff in Hle. congruence.
Qed.


(** ** Parsing the query *)

Lemma split_nonempty (sep : N) (s : pystr) : split sep s <> [].
Proof. destruct s as [|c s]; cbn; [discriminate|]. destruct (c =? sep)%N; [discriminate|]. now destruct (split sep s). Qed.

Lemma join_cons (sep p q : pystr) (ps : list pystr) :
  join sep (p :: q :: ps) = p ++ sep ++ join sep (q :: ps).
Proof. reflexivity. Qed.

Lemma join_split (sep : N) (s : pystr) : join [sep] (split sep s) = s.
Proof.
  induction s as [|c s IH]; [reflexivity|]. cbn [split].
  pose proof (split_nonempty sep s) as Hne.
  destruct (split sep s) as [|p ps] eqn:E; [congruence|].
  destruct (N.eqb_spec c sep) as [->|Hc].
  - rewrite join_cons, IH. reflexivity.
  - destruct ps as [|q ps].
    + cbn in *. now rewrite IH.
    + rewrite join_cons in *. rewrite <- IH. reflexivity.
Qed.

Lemma split_no_sep (sep : N) (s : pystr) : Forall (fun p => sep ∉ p) (split sep s).
Proof.
  induction s as [|c s IH]; cbn [split].
  - repeat constructor. inversion 1.
  - destruct (N.eqb_spec c sep) as [->|Hne].
    + constructor; [inversion 1 | assumption].
    + destruct (split sep s) as [|p ps]; [repeat constructor; now intros ->%list_elem_of_singleton|].
      inversion IH; subst. constructor; [|assumption].
      intros [->|H]%elem_of_cons; congruence.
Qed.


Lemma lstrip_id (s : pystr) : head s ≫= (fun c => Some (isspace c)) <> Some true -> lstrip s = s.
Proof. destruct s as [|c s]; cbn; [reflexivity|]. destruct (isspace c); congruence. Qed.

(** A string that neither starts nor ends with whitespace is its own strip. *)
Lemma strip_id (s : pystr) :
  head s ≫= (fun c => Some (isspace c)) <> Some true ->
  last s ≫= (fun c => Some (isspace c)) <> Some true ->
  strip s = s.
Proof.
  intros Hh Hl. unfold strip. rewrite (lstrip_id s Hh).
  rewrite lstrip_id; [apply reverse_involutive|].
  now rewrite head_reverse.
Qed.


(** ** Upserts into the country and the global inventory *)

Lemma insert_or_replace_no_key {R} (t : list R) (r : R) : insert_or_replace [] t r = t ++ [r].
Proof.
  unfold insert_or_replace. f_equal. cbn.
  induction t as [|x t IH]; [reflexivity|]. now rewrite filter_cons_True, IH.
Qed.

Lemma rows_of_insert {R} (tbl : database -> option (list R)) (fs : filesystem)
    (p : pystr) (d : database) :
  rows_of tbl (<[p := d]> fs) p = create_if_not_exists (tbl d).
Proof. unfold rows_of, read_db. now rewrite lookup_insert_eq. Qed.

Lemma rows_of_insert_ne {R} (tbl : database -> option (list R)) (fs : filesystem)
    (p q : pystr) (d : database) :
  p <> q -> rows_of tbl (<[p := d]> fs) q = rows_of tbl fs q.
Proof. intros H. unfold rows_of, read_db. now rewrite lookup_insert_ne. Qed.

(** What [update_country_inventory] does to the [regions] table: every row
    stays, in place, and one row is added at the end. *)
Lemma update_country_inventory_rows (country_dir region : pystr) (b : bounds) (fs : filesystem) :
  rows_of regions (update_country_inventory country_dir region b fs) (inventory_path country_dir)
  = rows_of regions fs (inventory_path country_dir)
    ++ [row_of_bounds region (path_join country_dir region) b].
Proof.
  unfold update_country_inventory. rewrite rows_of_insert. cbn.
  apply insert_or_replace_no_key.
Qed.

Lemma update_global_inventory_rows (country country_dir : pystr) (b : bounds) (fs : filesystem) :
  rows_of countries (update_global_inventory country country_dir b fs)
    (inventory_path RESULTS_FOLDERPATH)
  = rows_of countries fs (inventory_path RESULTS_FOLDERPATH)
    ++ [row_of_bounds country country_dir b].
Proof.
  unfold update_global_inventory. rewrite rows_of_insert. cbn.
  apply insert_or_replace_no_key.
Qed.

(** ** Forward resolution *)


Lemma first_match_ext {R} (P P' : R -> Prop) (t : list R) (x : R) :
  (forall y, P y <-> P' y) -> first_match P t x -> first_match P' t x.
Proof.
  intros H (pre & post & -> & Hx & Hpre). exists pre, post.
  split; [reflexivity|]. split; [now apply H|]. intros y Hy Hy'. apply (Hpre y Hy). now apply H.
Qed.

Lemma fetchone_where_Some {R} (p : R -> bool) (t : list R) (x : R) :
  fetchone_where p t = Some x <-> first_match (fun r => p r = true) t x.
Proof.
  unfold fetchone_where. induction t as [|y t IH]; cbn.
  - split; [discriminate|]. intros (pre & post & H & _). now destruct pre.
  - destruct (p y) eqn:E.
    + split.
      * intros [= ->]. exists [], t. split; [reflexivity|]. split; [assumption|]. inversion 1.
      * intros (pre & post & H & Hx & Hpre). destruct pre as [|z pre]; cbn in H.
        -- now inversion H.
        -- inversion H; subst. exfalso. apply (Hpre z); [left | assumption].
    + rewrite IH. split.
      * intros (pre & post & -> & Hx & Hpre). exists (y :: pre), post.
        split; [reflexivity|]. split; [assumption|].
        intros z [->|Hz]%elem_of_cons; [congruence | now apply Hpre].
      * intros (pre & post & H & Hx & Hpre). destruct pre as [|z pre]; cbn in H.
        -- inversion H; subst. congruence.
        -- inversion H; subst. exists pre, post. split; [reflexivity|]. split; [assumption|].
           intros w Hw. apply Hpre. now right.
Qed.

Lemma fetchone_where_None {R} (p : R -> bool) (t : list R) :
  fetchone_where p t = None <-> forall y, y ∈ t -> p y = false.
Proof.
  unfold fetchone_where. induction t as [|y t IH]; cbn.
  - split; [inversion 2 | reflexivity].
  - destruct (p y) eqn:E.
    + split; [discriminate|]. intros H. specialize (H y (list_elem_of_here _ _)). congruence.
    + rewrite IH. split.
      * intros H z [->|Hz]%elem_of_cons; auto.
      * intros H z Hz. apply H. now right.
Qed.






(** ** Aggregates *)

Section Aggregate.

Variable pick : Q -> Q -> Q.
Variable R : Q -> Q -> Prop.
Hypothesis pick_cases : forall a b, pick a b = a \/ pick a b = b.
Hypothesis pick_l : forall a b, R (pick a b) a.
Hypothesis pick_r : forall a b, R (pick a b) b.
Hypothesis R_refl : forall a, R a a.
Hypothesis R_trans : forall a b c, R a b -> R b c -> R a c.
Hypothesis R_antisym : forall a b, R a b -> R b a -> (a == b)%Q.

Lemma aggregate_acc (col : list (option Q)) (acc : option Q) :
  match fold_left (aggregate_step pick) col acc with
  | None => acc = None /\ values col = []
  | Some m =>
      (Some m = acc \/ m ∈ values col)
      /\ (forall a, acc = Some a -> R m a) /\ forall x, x ∈ values col -> R m x
  end.
Proof.
  revert acc. induction col as [|x col IH]; intros acc; cbn [fold_left].
  - destruct acc as [a|]; cbn.
    + split; [now left|]. split; [now intros ? [= ->] | inversion 1].
    + now split.
  - specialize (IH (aggregate_step pick acc x)).
    destruct (fold_left (aggregate_step pick) col (aggregate_step pick acc x)) as [m|].
    + destruct IH as (Hin & Hacc & Hall).
      destruct x as [v|]; cbn [values omap] in *; cbn in *.
      * fold (values col) in *. destruct acc as [a|]; cbn in *.
        -- split; [|split].
           ++ destruct Hin as [[= ->]|Hin]; [|right; now right].
              destruct (pick_cases a v) as [->| ->]; [now left | right; left].
           ++ intros ? [= <-]. eapply R_trans; [now apply Hacc | apply pick_l].
           ++ intros y [->|Hy]%elem_of_cons; [|now apply Hall].
              eapply R_trans; [now apply Hacc | apply pick_r].
        -- split; [|split; [discriminate|]].
           ++ destruct Hin as [[= ->]|Hin]; right; [left | now right].
           ++ intros y [->|Hy]%elem_of_cons; [now apply Hacc | now apply Hall].
      * fold (values col) in *. destruct acc; cbn in *; auto.
    + destruct IH as (Hacc & Hnil). destruct x as [v|]; cbn in *.
      * destruct acc; discriminate.
      * fold (values col). destruct acc; [discriminate|]. now split.
Qed.

Lemma aggregate_Some (col : list (option Q)) (m : Q) :
  sql_aggregate pick col = Some m -> m ∈ values col /\ forall x, x ∈ values col -> R m x.
Proof.
  pose proof (aggregate_acc col None) as H. unfold sql_aggregate.
  intros E. rewrite E in H. destruct H as ([[=]|Hin] & _ & Hall). now split.
Qed.

Lemma aggregate_None (col : list (option Q)) :
  sql_aggregate pick col = None <-> values col = [].
Proof.
  pose proof (aggregate_acc col None) as H. unfold sql_aggregate.
  destruct (fold_left (aggregate_step pick) col None) as [m|].
  - split; [discriminate|]. intros E. rewrite E in H.
    destruct H as ([[=]|Hin] & _). inversion Hin.
  - now split.
Qed.

Lemma aggregate_spec (col : list (option Q)) :
  column_consistent R (sql_aggregate pick col) (values col).
Proof.
  destruct (sql_aggregate pick col) as [m|] eqn:E; cbn.
  - apply aggregate_Some in E as [Hin Hall]. split; [|assumption].
    exists m. split; [assumption | reflexivity].
  - now apply aggregate_None.
Qed.

Lemma values_app (c1 c2 : list (option Q)) : values (c1 ++ c2) = values c1 ++ values c2.
Proof. apply omap_app. Qed.

Lemma values_fmap_elem {A} (f : A -> option Q) (rows : list A) (r : A) (a : Q) :
  r ∈ rows -> f r = Some a -> a ∈ values (map f rows).
Proof.
  intros Hr Ha. apply list_elem_of_omap. exists (f r). split; [|exact Ha].
  apply list_elem_of_fmap. eauto.
Qed.

(** Rows that each describe their own points exactly make a table whose
    aggregate describes all the points. *)
Lemma aggregate_of_exact_rows {A} (rows : list A) (f : A -> option Q) (g : A -> list Q) :
  (forall r, r ∈ rows -> exists a, f r = Some a /\ extreme R a (g r)) ->
  column_consistent R (sql_aggregate pick (map f rows)) (rows ≫= g).
Proof.
  intros Hrows.
  destruct (sql_aggregate pick (map f rows)) as [m|] eqn:E; cbn.
  - apply aggregate_Some in E as [Hy Hall].
    apply list_elem_of_omap in Hy as (o & Ho & Hoy). cbn in Hoy. subst o.
    apply list_elem_of_fmap in Ho as (r & Hfr & Hr).
    destruct (Hrows r Hr) as (a & Ha & [(z & Hz & Haz) Hleast]).
    assert (a = m) by congruence. subst a. split.
    + exists z. split; [apply list_elem_of_bind; eauto | assumption].
    + intros x (r' & Hx & Hr')%list_elem_of_bind.
      destruct (Hrows r' Hr') as (a' & Ha' & [_ Hleast']).
      eapply R_trans; [|now apply Hleast'].
      apply Hall. eapply values_fmap_elem; eauto.
  - apply aggregate_None in E.
    destruct rows as [|r rows]; [reflexivity|]. exfalso.
    destruct (Hrows r (list_elem_of_here _ _)) as (a & Ha & _).
    unfold values in E. cbn in E. rewrite Ha in E. discriminate.
Qed.

(** One side of a merge: the least of the whole is below every point of a
    part, and when it comes from that part it is one of its points. *)
Lemma aggregate_part (part whole : list (option Q)) (S_part : list Q) (m : Q) :
  column_consistent R (sql_aggregate pick part) S_part ->
  (forall x, x ∈ values whole -> R m x) ->
  (forall x, x ∈ values part -> x ∈ values whole) ->
  (forall x, x ∈ S_part -> R m x)
  /\ (m ∈ values part -> exists z, z ∈ S_part /\ (m == z)%Q).
Proof.
  intros Hpart Hall Hsub.
  destruct (sql_aggregate pick part) as [mp|] eqn:E; cbn in Hpart.
  - apply aggregate_Some in E as [Hin Hleast]. destruct Hpart as [(z & Hz & Hmz) Hp].
    split.
    + intros x Hx. eapply R_trans; [|now apply Hp]. now apply Hall, Hsub.
    + intros Hm. exists z. split; [assumption|].
      rewrite <- Hmz. apply R_antisym; [now apply Hall, Hsub | now apply Hleast].
  - apply aggregate_None in E. subst S_part. split; [inversion 1|].
    rewrite E. inversion 1.
Qed.

(** Merging two tables whose aggregates agree with their points. *)
Lemma aggregate_merge (old new : list (option Q)) (S_old S_new S' : list Q) :
  column_consistent R (sql_aggregate pick old) S_old ->
  column_consistent R (sql_aggregate pick new) S_new ->
  (forall x, x ∈ S_old -> x ∈ S') -> (forall x, x ∈ S_new -> x ∈ S') ->
  (forall x, x ∈ S' -> x ∈ S_old \/ x ∈ S_new) ->
  column_consistent R (sql_aggregate pick (old ++ new)) S'.
Proof.
  intros Hold Hnew Ho Hn Hcov.
  destruct (sql_aggregate pick (old ++ new)) as [m|] eqn:E; cbn.
  - apply aggregate_Some in E as [Hin Hall]. rewrite values_app in Hin, Hall.
    destruct (aggregate_part old (old ++ new) S_old m Hold) as [Hbo Hio].
    { now rewrite values_app. } { intros x Hx. rewrite values_app. apply elem_of_app. now left. }
    destruct (aggregate_part new (old ++ new) S_new m Hnew) as [Hbn Hin'].
    { now rewrite values_app. } { intros x Hx. rewrite values_app. apply elem_of_app. now right. }
    split.
    + apply elem_of_app in Hin as [Hm|Hm].
      * destruct (Hio Hm) as (z & Hz & Hmz). exists z. split; [now apply Ho | assumption].
      * destruct (Hin' Hm) as (z & Hz & Hmz). exists z. split; [now apply Hn | assumption].
    + intros x [Hx|Hx]%Hcov; [now apply Hbo | now apply Hbn].
  - apply aggregate_None in E. rewrite values_app in E.
    apply app_eq_nil in E as [Eo En].
    apply aggregate_None in Eo, En. rewrite Eo in Hold. rewrite En in Hnew. cbn in *. subst.
    destruct S' as [|x S']; [reflexivity|].
    destruct (Hcov x (list_elem_of_here _ _)) as [H|H]; inversion H.
Qed.

End Aggregate.

(** ** The store under the writers *)

Lemma table_at_rows_of {R} (tbl : database -> option (list R)) (fs : filesystem) (q : pystr) :
  has_table tbl fs q -> table_at tbl fs q = Some (rows_of tbl fs q).
Proof.
  unfold has_table, table_at, rows_of, read_db. intros [t Ht].
  destruct (fs !! q) as [d|]; cbn in *; [|discriminate]. now rewrite Ht.
Qed.

(** A write to one table of the file [p] leaves the other tables of all
    files as they were. *)
Lemma rows_of_update {R} (tbl : database -> option (list R)) (f : database -> database)
    (fs : filesystem) (p q : pystr) :
  (forall d, tbl (f d) = tbl d) ->
  rows_of tbl (<[p := f (read_db fs p)]> fs) q = rows_of tbl fs q.
Proof.
  intros Hf. unfold rows_of. destruct (decide (p = q)) as [->|Hne].
  - replace (read_db (<[q := f (read_db fs q)]> fs) q) with (f (read_db fs q)).
    + now rewrite Hf.
    + unfold read_db at 2. now rewrite lookup_insert_eq.
  - unfold read_db. now rewrite lookup_insert_ne.
Qed.

Lemma has_table_update {R} (tbl : database -> option (list R)) (f : database -> database)
    (fs : filesystem) (p q : pystr) :
  (forall d, is_Some (tbl d) -> is_Some (tbl (f d))) ->
  has_table tbl fs q -> has_table tbl (<[p := f (read_db fs p)]> fs) q.
Proof.
  intros Hf. unfold has_table, table_at. destruct (decide (p = q)) as [->|Hne].
  - rewrite lookup_insert_eq. unfold read_db. destruct (fs !! q); cbn; [apply Hf|].
    now intros [? ?].
  - now rewrite lookup_insert_ne.
Qed.

Lemma has_table_insert {R} (tbl : database -> option (list R)) (d : database)
    (fs : filesystem) (p : pystr) :
  is_Some (tbl d) -> has_table tbl (<[p := d]> fs) p.
Proof. intros H. unfold has_table, table_at. now rewrite lookup_insert_eq. Qed.

Lemma rows_of_connect {R} (tbl : database -> option (list R)) (fs : filesystem) (p q : pystr) :
  rows_of tbl (connect p fs) q = rows_of tbl fs q.
Proof.
  unfold connect. destruct (fs !! p) eqn:E; [reflexivity|].
  unfold rows_of, read_db. destruct (decide (p = q)) as [->|Hne].
  - now rewrite lookup_insert_eq, E.
  - now rewrite lookup_insert_ne.
Qed.

Lemma has_table_connect {R} (tbl : database -> option (list R)) (fs : filesystem) (p q : pystr) :
  has_table tbl fs q -> has_table tbl (connect p fs) q.
Proof.
  unfold connect. destruct (fs !! p) eqn:E; [easy|].
  unfold has_table, table_at. destruct (decide (p = q)) as [->|Hne].
  - rewrite E. now intros [? ?].
  - now rewrite lookup_insert_ne.
Qed.

Lemma insert_address_app (nodes_dict : gmap Z (Q * Q)) (t u : list address_row)
    (a : way_address) :
  insert_address nodes_dict (t ++ u) a = t ++ insert_address nodes_dict u a.
Proof.
  destruct a as [[s h] refs]. cbn.
  destruct (valid_nodes nodes_dict refs); [reflexivity|]. now rewrite app_assoc.
Qed.

Lemma fold_insert_address (nodes_dict : gmap Z (Q * Q)) (las : list way_address)
    (t : list address_row) :
  fold_left (insert_address nodes_dict) las t = t ++ written_rows nodes_dict las.
Proof.
  unfold written_rows. rewrite <- (app_nil_r t) at 1. generalize (@nil address_row) as u.
  induction las as [|a las IH]; intros u; cbn; [reflexivity|].
  now rewrite insert_address_app, IH.
Qed.

(** [process_addresses_to_db] only appends to [addresses] tables. *)
Lemma process_addresses_rows (clk : nat -> pystr) (k : nat) (addrs : address_dict)
    (nodes_dict : gmap Z (Q * Q)) (output_dir : pystr) (fs : filesystem) (q : pystr) :
  rows_of addresses (process_addresses_to_db clk k addrs nodes_dict output_dir fs) q
  = rows_of addresses fs q ++ rows_appended clk k addrs nodes_dict output_dir q.
Proof.
  revert k fs. induction addrs as [|[locality las] rest IH]; intros k fs; cbn.
  - now rewrite app_nil_r.
  - rewrite IH, fold_insert_address. rewrite app_assoc. f_equal.
    destruct (decide (_ = q)) as [->|Hne].
    + now rewrite rows_of_insert.
    + rewrite rows_of_insert_ne by assumption. now rewrite app_nil_r.
Qed.

Lemma process_addresses_other {R} (tbl : database -> option (list R)) (clk : nat -> pystr)
    (k : nat) (addrs : address_dict) (nodes_dict : gmap Z (Q * Q)) (output_dir : pystr)
    (fs : filesystem) (q : pystr) :
  (forall t d, tbl (set_addresses t d) = tbl d) ->
  rows_of tbl (process_addresses_to_db clk k addrs nodes_dict output_dir fs) q
  = rows_of tbl fs q.
Proof.
  intros Hf. revert k fs. induction addrs as [|[locality las] rest IH]; intros k fs; cbn.
  - reflexivity.
  - rewrite IH. apply (rows_of_update tbl (set_addresses _)). intros d. apply Hf.
Qed.

Lemma process_addresses_has_table {R} (tbl : database -> option (list R))
    (clk : nat -> pystr) (k : nat) (addrs : address_dict) (nodes_dict : gmap Z (Q * Q))
    (output_dir : pystr) (fs : filesystem) (q : pystr) :
  (forall t d, is_Some (tbl d) -> is_Some (tbl (set_addresses t d))) ->
  has_table tbl fs q ->
  has_table tbl (process_addresses_to_db clk k addrs nodes_dict output_dir fs) q.
Proof.
  intros Hf. revert k fs. induction addrs as [|[locality las] rest IH]; intros k fs H; cbn.
  - assumption.
  - apply IH. apply (has_table_update tbl (set_addresses _)); [intros d; apply Hf | assumption].
Qed.


Ltac case_inventory_step :=
  match goal with
  | |- context [addresses (read_db ?f ?p)] => destruct (addresses (read_db f p))
  end;
  [match goal with
   | |- context [bounds_min_lat ?b] => destruct (bounds_min_lat b)
   end|].

Lemma locality_rows_ext (clk : nat -> pystr) (k : nat) (output_dir : pystr)
    (addrs : address_dict) (fs fs' : filesystem) :
  (forall q, rows_of addresses fs' q = rows_of addresses fs q) ->
  locality_rows clk k output_dir addrs fs' = locality_rows clk k output_dir addrs fs.
Proof.
  intros H. revert k. induction addrs as [|[name las] rest IH]; intros k; cbn; [reflexivity|].
  now rewrite H, IH.
Qed.

(** The loop of [create_inventory_db] leaves every table but [localities]
    as it was. *)
Lemma create_inventory_rows_other {R} (tbl : database -> option (list R))
    (clk : nat -> pystr) (k : nat) (output_dir : pystr) (addrs : address_dict)
    (fs : filesystem) (q : pystr) :
  (forall t d, tbl (set_localities t d) = tbl d) ->
  rows_of tbl (create_inventory_rows clk k output_dir addrs fs) q = rows_of tbl fs q.
Proof.
  intros Hf. revert k fs. induction addrs as [|[name las] rest IH]; intros k fs; cbn [create_inventory_rows].
  - reflexivity.
  - case_inventory_step; rewrite IH.
    + rewrite (rows_of_update tbl (set_localities _)) by (intros d; apply Hf).
      apply rows_of_connect.
    + apply rows_of_connect.
    + apply rows_of_connect.
Qed.

Lemma create_inventory_rows_has_table {R} (tbl : database -> option (list R))
    (clk : nat -> pystr) (k : nat) (output_dir : pystr) (addrs : address_dict)
    (fs : filesystem) (q : pystr) :
  (forall t d, is_Some (tbl d) -> is_Some (tbl (set_localities t d))) ->
  has_table tbl fs q ->
  has_table tbl (create_inventory_rows clk k output_dir addrs fs) q.
Proof.
  intros Hf. revert k fs. induction addrs as [|[name las] rest IH]; intros k fs H; cbn [create_inventory_rows].
  - assumption.
  - case_inventory_step; apply IH.
    + apply (has_table_update tbl (set_localities _)); [intros d; apply Hf|].
      now apply has_table_connect.
    + now apply has_table_connect.
    + now apply has_table_connect.
Qed.

(** What the loop adds to the region inventory. *)
Lemma create_inventory_rows_localities (clk : nat -> pystr) (k : nat)
    (output_dir : pystr) (addrs : address_dict) (fs : filesystem) (q : pystr) :
  rows_of localities (create_inventory_rows clk k output_dir addrs fs) q
  = rows_of localities fs q
    ++ if decide (inventory_path output_dir = q)
       then locality_rows clk k output_dir addrs fs else [].
Proof.
  revert k fs. induction addrs as [|[name las] rest IH]; intros k fs;
    cbn [create_inventory_rows locality_rows].
  - destruct (decide _); now rewrite app_nil_r.
  - set (p := locality_db_path output_dir _).
    assert (Hrows : rows_of addresses fs p
                    = create_if_not_exists (addresses (read_db (connect p fs) p))).
    { now rewrite <- (rows_of_connect addresses fs p p). }
    assert (Hext : locality_rows clk (S k) output_dir rest (connect p fs)
                   = locality_rows clk (S k) output_dir rest fs).
    { apply locality_rows_ext. intros q'. apply rows_of_connect. }
    rewrite Hrows.
    destruct (addresses (read_db (connect p fs) p)) as [t|] eqn:Et.
    + change (create_if_not_exists (Some t)) with t.
      destruct (bounds_min_lat (select_address_bounds t)) eqn:Eb.
      * rewrite IH. rewrite (locality_rows_ext _ _ _ _ fs).
        2:{ intros q'. rewrite (rows_of_update addresses (set_localities _)) by reflexivity.
            apply rows_of_connect. }
        destruct (decide (inventory_path output_dir = q)) as [<-|Hne].
        -- rewrite rows_of_insert.
           change (create_if_not_exists (localities (set_localities ?t ?d))) with t.
           fold (rows_of localities (connect p fs) (inventory_path output_dir)).
           now rewrite rows_of_connect, <- app_assoc.
        -- rewrite rows_of_insert_ne by assumption. now rewrite rows_of_connect.
      * rewrite IH, Hext, rows_of_connect. reflexivity.
    + change (create_if_not_exists None) with (@nil address_row).
      change (bounds_min_lat (select_address_bounds [])) with (@None Q).
      rewrite IH, Hext, rows_of_connect. reflexivity.
Qed.

Lemma create_inventory_db_localities (clk : nat -> pystr) (k : nat)
    (output_dir : pystr) (addrs : address_dict) (fs : filesystem) (q : pystr) :
  rows_of localities (create_inventory_db clk k output_dir addrs fs) q
  = rows_of localities fs q
    ++ if decide (inventory_path output_dir = q)
       then locality_rows clk k output_dir addrs fs else [].
Proof.
  unfold create_inventory_db. rewrite create_inventory_rows_localities.
  rewrite (locality_rows_ext _ _ _ _ fs)
    by (intros q'; now apply (rows_of_update addresses (set_localities _))).
  f_equal. destruct (decide (inventory_path output_dir = q)) as [<-|Hne].
  - now rewrite rows_of_insert.
  - now rewrite rows_of_insert_ne.
Qed.

Lemma create_inventory_db_other {R} (tbl : database -> option (list R))
    (clk : nat -> pystr) (k : nat) (output_dir : pystr) (addrs : address_dict)
    (fs : filesystem) (q : pystr) :
  (forall t d, tbl (set_localities t d) = tbl d) ->
  rows_of tbl (create_inventory_db clk k output_dir addrs fs) q = rows_of tbl fs q.
Proof.
  intros Hf. unfold create_inventory_db. rewrite create_inventory_rows_other by assumption.
  apply (rows_of_update tbl (set_localities _)). intros d. apply Hf.
Qed.

Lemma create_inventory_db_has_table {R} (tbl : database -> option (list R))
    (clk : nat -> pystr) (k : nat) (output_dir : pystr) (addrs : address_dict)
    (fs : filesystem) (q : pystr) :
  (forall t d, is_Some (tbl d) -> is_Some (tbl (set_localities t d))) ->
  has_table tbl fs q ->
  has_table tbl (create_inventory_db clk k output_dir addrs fs) q.
Proof.
  intros Hf H. unfold create_inventory_db.
  apply create_inventory_rows_has_table; [assumption|].
  apply (has_table_update tbl (set_localities _)); [intros d; apply Hf | assumption].
Qed.

Lemma create_inventory_db_creates (clk : nat -> pystr) (k : nat)
    (output_dir : pystr) (addrs : address_dict) (fs : filesystem) :
  has_table localities (create_inventory_db clk k output_dir addrs fs)
    (inventory_path output_dir).
Proof.
  unfold create_inventory_db.
  apply create_inventory_rows_has_table; [now intros; cbn|].
  now apply has_table_insert.
Qed.

Lemma update_country_inventory_other {R} (tbl : database -> option (list R))
    (country_dir region : pystr) (b : bounds) (fs : filesystem) (q : pystr) :
  (forall t d, tbl (set_regions t d) = tbl d) ->
  rows_of tbl (update_country_inventory country_dir region b fs) q = rows_of tbl fs q.
Proof.
  intros Hf. unfold update_country_inventory.
  apply (rows_of_update tbl (set_regions _)). intros d. apply Hf.
Qed.

Lemma update_global_inventory_other {R} (tbl : database -> option (list R))
    (country country_dir : pystr) (b : bounds) (fs : filesystem) (q : pystr) :
  (forall t d, tbl (set_countries t d) = tbl d) ->
  rows_of tbl (update_global_inventory country country_dir b fs) q = rows_of tbl fs q.
Proof.
  intros Hf. unfold update_global_inventory.
  apply (rows_of_update tbl (set_countries _)). intros d. apply Hf.
Qed.

Lemma update_country_inventory_regions (country_dir region : pystr) (b : bounds)
    (fs : filesystem) (q : pystr) :
  rows_of regions (update_country_inventory country_dir region b fs) q
  = rows_of regions fs q
    ++ if decide (inventory_path country_dir = q)
       then [row_of_bounds region (path_join country_dir region) b] else [].
Proof.
  destruct (decide (inventory_path country_dir = q)) as [<-|Hne].
  - apply update_country_inventory_rows.
  - unfold update_country_inventory. rewrite rows_of_insert_ne by assumption.
    now rewrite app_nil_r.
Qed.

Lemma update_global_inventory_countries (country country_dir : pystr) (b : bounds)
    (fs : filesystem) (q : pystr) :
  rows_of countries (update_global_inventory country country_dir b fs) q
  = rows_of countries fs q
    ++ if decide (inventory_path RESULTS_FOLDERPATH = q)
       then [row_of_bounds country country_dir b] else [].
Proof.
  destruct (decide (inventory_path RESULTS_FOLDERPATH = q)) as [<-|Hne].
  - apply update_global_inventory_rows.
  - unfold update_global_inventory. rewrite rows_of_insert_ne by assumption.
    now rewrite app_nil_r.
Qed.

(** ** One ingestion run, table by table *)

Section Run.

Variable clk : nat -> pystr.
Variables country region : pystr.
Variable addrs : address_dict.
Variable nodes_dict : gmap Z (Q * Q).
Variable fs : filesystem.

Local Abbreviation country_dir := (path_join RESULTS_FOLDERPATH country).
Local Abbreviation output_dir := (run_output_dir country region).
Local Abbreviation fs' := (ingest clk country region addrs nodes_dict fs).

Lemma ingest_addresses (q : pystr) :
  rows_of addresses fs' q
  = rows_of addresses fs q ++ rows_appended clk 0 addrs nodes_dict output_dir q.
Proof.
  unfold ingest, run_locality_rows, run_output_dir; cbv zeta.
  repeat match goal with |- context [match bounds_min_lat ?b with _ => _ end] =>
    destruct (bounds_min_lat b) end;
  rewrite ?update_global_inventory_other, ?update_country_inventory_other,
    ?create_inventory_db_other by reflexivity;
  apply process_addresses_rows.
Qed.

Lemma ingest_localities (q : pystr) :
  rows_of localities fs' q
  = rows_of localities fs q
    ++ if decide (inventory_path output_dir = q)
       then run_locality_rows clk country region addrs nodes_dict fs else [].
Proof.
  unfold ingest, run_locality_rows, run_output_dir; cbv zeta.
  repeat match goal with |- context [match bounds_min_lat ?b with _ => _ end] =>
    destruct (bounds_min_lat b) end;
  rewrite ?update_global_inventory_other, ?update_country_inventory_other by reflexivity;
  rewrite create_inventory_db_localities, process_addresses_other by reflexivity;
  reflexivity.
Qed.

Lemma region_bounds_read :
  select_inventory_bounds
    (rows_of localities
       (create_inventory_db clk (length addrs) output_dir addrs
          (process_addresses_to_db clk 0 addrs nodes_dict output_dir fs))
       (inventory_path output_dir))
  = run_region_bounds clk country region addrs nodes_dict fs.
Proof.
  rewrite create_inventory_db_localities, process_addresses_other by reflexivity.
  now rewrite decide_True.
Qed.

Lemma region_bounds_read' :
  select_inventory_bounds
    (rows_of localities
       (create_inventory_db clk (length addrs) (path_join country_dir region) addrs
          (process_addresses_to_db clk 0 addrs nodes_dict (path_join country_dir region) fs))
       (inventory_path (path_join country_dir region)))
  = run_region_bounds clk country region addrs nodes_dict fs.
Proof. apply region_bounds_read. Qed.

Lemma ingest_regions (q : pystr) :
  rows_of regions fs' q
  = rows_of regions fs q
    ++ if decide (inventory_path country_dir = q)
       then run_region_rows clk country region addrs nodes_dict fs else [].
Proof.
  unfold ingest, run_output_dir; cbv zeta. rewrite region_bounds_read'. unfold run_region_rows.
  destruct (bounds_min_lat (run_region_bounds _ _ _ _ _ _)).
  - match goal with |- context [match bounds_min_lat ?b with _ => _ end] =>
      destruct (bounds_min_lat b) end;
    rewrite ?update_global_inventory_other by reflexivity;
    rewrite update_country_inventory_regions;
    rewrite create_inventory_db_other, process_addresses_other by reflexivity;
    reflexivity.
  - rewrite create_inventory_db_other, process_addresses_other by reflexivity.
    destruct (decide _); now rewrite app_nil_r.
Qed.

Lemma country_bounds_read' :
  is_Some (bounds_min_lat (run_region_bounds clk country region addrs nodes_dict fs)) ->
  select_inventory_bounds
    (rows_of regions
       (update_country_inventory country_dir region
          (run_region_bounds clk country region addrs nodes_dict fs)
          (create_inventory_db clk (length addrs) (path_join country_dir region) addrs
             (process_addresses_to_db clk 0 addrs nodes_dict
                (path_join country_dir region) fs)))
       (inventory_path country_dir))
  = run_country_bounds clk country region addrs nodes_dict fs.
Proof.
  intros [m Er].
  rewrite update_country_inventory_regions, decide_True by reflexivity.
  rewrite create_inventory_db_other, process_addresses_other by reflexivity.
  unfold run_country_bounds, run_region_rows. now rewrite Er.
Qed.

Lemma ingest_countries (q : pystr) :
  rows_of countries fs' q
  = rows_of countries fs q
    ++ if decide (inventory_path RESULTS_FOLDERPATH = q)
       then run_country_rows clk country region addrs nodes_dict fs else [].
Proof.
  unfold ingest, run_output_dir; cbv zeta. rewrite region_bounds_read'.
  unfold run_country_rows, run_region_rows.
  destruct (bounds_min_lat (run_region_bounds _ _ _ _ _ _)) eqn:Er.
  - assert (Hcb : select_inventory_bounds
                    (rows_of regions
                       (update_country_inventory country_dir region
                          (run_region_bounds clk country region addrs nodes_dict fs)
                          (create_inventory_db clk (length addrs)
                             (path_join country_dir region) addrs
                             (process_addresses_to_db clk 0 addrs nodes_dict
                                (path_join country_dir region) fs)))
                       (inventory_path country_dir))
                  = run_country_bounds clk country region addrs nodes_dict fs).
    { rewrite update_country_inventory_regions, decide_True by reflexivity.
      rewrite create_inventory_db_other, process_addresses_other by reflexivity.
      unfold run_country_bounds, run_region_rows. now rewrite Er. }
    rewrite Hcb. destruct (bounds_min_lat (run_country_bounds _ _ _ _ _ _)).
    + rewrite update_global_inventory_countries.
      rewrite update_country_inventory_other by reflexivity.
      rewrite create_inventory_db_other, process_addresses_other by reflexivity.
      reflexivity.
    + rewrite update_country_inventory_other by reflexivity.
      rewrite create_inventory_db_other, process_addresses_other by reflexivity.
      destruct (decide _); now rewrite app_nil_r.
  - rewrite create_inventory_db_other, process_addresses_other by reflexivity.
    destruct (decide _); now rewrite app_nil_r.
Qed.

End Run.

(** ** Envelopes *)

Lemma Qmin_cases (a b : Q) : Qmin a b = a \/ Qmin a b = b.
Proof. unfold Qmin, GenericMinMax.gmin. destruct (a ?= b)%Q; auto. Qed.

Lemma Qmax_cases (a b : Q) : Qmax a b = a \/ Qmax a b = b.
Proof. unfold Qmax, GenericMinMax.gmax. destruct (a ?= b)%Q; auto. Qed.

Lemma Qge'_trans (a b c : Q) : Qge' a b -> Qge' b c -> Qge' a c.
Proof. unfold Qge'. intros H1 H2. eapply Qle_trans; eassumption. Qed.

Lemma Qge'_antisym (a b : Q) : Qge' a b -> Qge' b a -> (a == b)%Q.
Proof. unfold Qge'. intros H1 H2. now apply Qle_antisym. Qed.

Lemma Qge'_max_l (a b : Q) : Qge' (Qmax a b) a.
Proof. apply Q.le_max_l. Qed.

Lemma Qge'_max_r (a b : Q) : Qge' (Qmax a b) b.
Proof. apply Q.le_max_r. Qed.

Lemma Qge'_refl (a : Q) : Qge' a a.
Proof. apply Qle_refl. Qed.

Create HintDb envelope.
#[local] Hint Resolve Qmin_cases Qmax_cases Q.le_min_l Q.le_min_r Qle_refl Qle_trans
  Qle_antisym Qge'_trans Qge'_antisym Qge'_max_l Qge'_max_r Qge'_refl : envelope.

Lemma fmap_bind_list {A B C} (f : B -> C) (g : A -> list B) (l : list A) :
  f <$> (l ≫= g) = l ≫= (fun x => f <$> g x).
Proof.
  induction l as [|x l IH]; [reflexivity|]. rewrite !bind_cons, fmap_app. now rewrite IH.
Qed.

Lemma values_Some {A} (f : A -> Q) (l : list A) : values (map (fun r => Some (f r)) l) = map f l.
Proof. unfold values. induction l as [|x l IH]; cbn; [reflexivity|]. now rewrite IH. Qed.

Lemma envelope_consistent (coords : list (Q * Q)) (b : bounds) :
  envelope coords b <-> consistent coords b /\ coords <> [].
Proof.
  split.
  - intros (a1 & a2 & a3 & a4 & -> & H1 & H2 & H3 & H4). split.
    + exact (conj H1 (conj H2 (conj H3 H4))).
    + destruct H1 as [(y & Hy & _) _]. intros ->. inversion Hy.
  - intros [(H1 & H2 & H3 & H4) Hne]. destruct b as [[[o1 o2] o3] o4]. cbn in *.
    destruct o1, o2, o3, o4; cbn in *;
      try (exfalso; apply Hne;
           solve [ eapply fmap_nil_inv; eassumption ]).
    eexists _, _, _, _. split; [reflexivity|].
    exact (conj H1 (conj H2 (conj H3 H4))).
Qed.

Lemma consistent_min_lat (coords : list (Q * Q)) (b : bounds) :
  consistent coords b -> is_Some (bounds_min_lat b) <-> coords <> [].
Proof.
  intros (H1 & _). unfold bounds_min_lat. destruct (b.1.1.1) as [m|]; cbn in *.
  - split; [|eauto]. intros _ ->. destruct H1 as [(y & Hy & _) _]. inversion Hy.
  - split; [now intros [? ?]|]. intros Hne. exfalso. apply Hne. eapply fmap_nil_inv; eassumption.
Qed.

(** The aggregates over an address table describe its points. *)
Lemma select_address_bounds_consistent (t : list address_row) :
  consistent (map (fun r => (latitude r, longitude r)) t) (select_address_bounds t).
Proof.
  unfold consistent, select_address_bounds. cbn [fst snd].
  assert (H1 : (map (fun r => (latitude r, longitude r)) t).*1 = map latitude t).
  { induction t as [|x t IH]; [reflexivity|]. cbn. f_equal. exact IH. }
  assert (H2 : (map (fun r => (latitude r, longitude r)) t).*2 = map longitude t).
  { clear H1. induction t as [|x t IH]; [reflexivity|]. cbn. f_equal. exact IH. }
  rewrite H1, H2, <- !(values_Some latitude), <- !(values_Some longitude).
  repeat split; apply aggregate_spec; eauto with envelope.
Qed.

Lemma consistent_of_exact_rows (rows : list inventory_row)
    (sub : inventory_row -> list (Q * Q)) :
  (forall r, r ∈ rows -> envelope (sub r) (row_bounds r)) ->
  consistent (rows ≫= sub) (select_inventory_bounds rows).
Proof.
  intros H. unfold consistent, select_inventory_bounds. cbn [fst snd].
  rewrite !fmap_bind_list.
  repeat split; apply aggregate_of_exact_rows; eauto with envelope;
    intros r Hr; destruct (H r Hr) as (a1 & a2 & a3 & a4 & E & H1 & H2 & H3 & H4);
    unfold row_bounds in E; injection E as E1 E2 E3 E4; eauto.
Qed.

Lemma consistent_merge (old new : list inventory_row) (C_old C_new C' : list (Q * Q)) :
  consistent C_old (select_inventory_bounds old) ->
  consistent C_new (select_inventory_bounds new) ->
  (forall x, x ∈ C_old -> x ∈ C') -> (forall x, x ∈ C_new -> x ∈ C') ->
  (forall x, x ∈ C' -> x ∈ C_old \/ x ∈ C_new) ->
  consistent C' (select_inventory_bounds (old ++ new)).
Proof.
  intros (O1 & O2 & O3 & O4) (N1 & N2 & N3 & N4) Ho Hn Hcov.
  unfold consistent, select_inventory_bounds in *. cbn [fst snd] in *.
  rewrite !map_app.
  assert (Hin : forall (f : Q * Q -> Q) (A B : list (Q * Q)),
            (forall x, x ∈ A -> x ∈ B) -> forall y, y ∈ f <$> A -> y ∈ f <$> B).
  { intros f A B HAB y (x & -> & Hx)%list_elem_of_fmap. apply list_elem_of_fmap. eauto. }
  assert (Hc : forall (f : Q * Q -> Q) y, y ∈ f <$> C' -> y ∈ f <$> C_old \/ y ∈ f <$> C_new).
  { intros f y (x & -> & Hx)%list_elem_of_fmap.
    destruct (Hcov x Hx); [left | right]; apply list_elem_of_fmap; eauto. }
  repeat split.
  - eapply (aggregate_merge Qmin Qle); eauto with envelope.
  - eapply (aggregate_merge Qmax Qge'); eauto with envelope.
  - eapply (aggregate_merge Qmin Qle); eauto with envelope.
  - eapply (aggregate_merge Qmax Qge'); eauto with envelope.
Qed.

Lemma select_single_row (name path : pystr) (b : bounds) :
  select_inventory_bounds [row_of_bounds name path b] = b.
Proof. destruct b as [[[[a|] [b|]] [c|]] [d|]]; reflexivity. Qed.

Lemma row_bounds_of_bounds (name path : pystr) (b : bounds) :
  row_bounds (row_of_bounds name path b) = b.
Proof. now destruct b as [[[a b] c] d]. Qed.

(** ** The rows of the region inventory *)

Lemma select_address_bounds_min_lat (t : list address_row) :
  is_Some (bounds_min_lat (select_address_bounds t)) <-> t <> [].
Proof.
  rewrite (consistent_min_lat _ _ (select_address_bounds_consistent t)).
  split; intros H E; apply H; [now subst | now apply fmap_nil_inv in E].
Qed.

Lemma row_name_of_bounds (name path : pystr) (b : bounds) :
  row_name (row_of_bounds name path b) = name.
Proof. now destruct b as [[[a b] c] d]. Qed.

Lemma row_path_of_bounds (name path : pystr) (b : bounds) :
  row_path (row_of_bounds name path b) = path.
Proof. now destruct b as [[[a b] c] d]. Qed.

Lemma locality_rows_elem (clk : nat -> pystr) (k : nat) (output_dir : pystr)
    (addrs : address_dict) (fs : filesystem) (r : inventory_row) :
  r ∈ locality_rows clk k output_dir addrs fs ->
  exists i name las,
    addrs !! i = Some (name, las) /\ row_name r = name
    /\ row_path r
       = locality_db_path output_dir
           (convert_polish_locality_name_to_restricted_in_filesystem (clk (k + i)%nat) name)
    /\ row_bounds r = select_address_bounds (rows_of addresses fs (row_path r))
    /\ rows_of addresses fs (row_path r) <> [].
Proof.
  revert k. induction addrs as [|[name las] rest IH]; intros k; cbn [locality_rows].
  - inversion 1.
  - intros [Hr|Hr]%elem_of_app.
    + match type of Hr with context [bounds_min_lat ?b] =>
        destruct (bounds_min_lat b) as [m|] eqn:E end; [|inversion Hr].
      apply list_elem_of_singleton in Hr. subst r.
      exists 0%nat, name, las. rewrite Nat.add_0_r.
      rewrite row_name_of_bounds, row_path_of_bounds, row_bounds_of_bounds.
      repeat split. apply select_address_bounds_min_lat. eauto.
    + destruct (IH _ Hr) as (i & n & l & Hi & Hn & Hp & Hb & Hne).
      exists (S i), n, l. replace (k + S i)%nat with (S k + i)%nat by lia. now repeat split.
Qed.

Lemma locality_rows_complete (clk : nat -> pystr) (k : nat) (output_dir : pystr)
    (addrs : address_dict) (fs : filesystem) (i : nat) (name : pystr)
    (las : list way_address) :
  addrs !! i = Some (name, las) ->
  rows_of addresses fs
    (locality_db_path output_dir
       (convert_polish_locality_name_to_restricted_in_filesystem (clk (k + i)%nat) name))
  <> [] ->
  exists r, r ∈ locality_rows clk k output_dir addrs fs /\ row_name r = name
            /\ row_path r
               = locality_db_path output_dir
                   (convert_polish_locality_name_to_restricted_in_filesystem
                      (clk (k + i)%nat) name).
Proof.
  revert k i. induction addrs as [|[n l] rest IH]; intros k i Hi Hne; [discriminate|].
  cbn [locality_rows]. destruct i as [|i]; cbn in Hi.
  - injection Hi as -> ->. rewrite Nat.add_0_r in *.
    apply select_address_bounds_min_lat in Hne as [m Hm]. rewrite Hm.
    eexists. split; [apply elem_of_app; left; left|].
    now rewrite row_name_of_bounds, row_path_of_bounds.
  - replace (k + S i)%nat with (S k + i)%nat in * by lia.
    destruct (IH _ _ Hi Hne) as (r & Hr & Hn & Hp).
    exists r. split; [apply elem_of_app; now right | now split].
Qed.

Lemma rows_appended_elem (clk : nat -> pystr) (k : nat) (addrs : address_dict)
    (nodes_dict : gmap Z (Q * Q)) (output_dir q : pystr) (x : address_row) :
  x ∈ rows_appended clk k addrs nodes_dict output_dir q ->
  exists i name las,
    addrs !! i = Some (name, las)
    /\ q = locality_db_path output_dir
             (convert_polish_locality_name_to_restricted_in_filesystem (clk (k + i)%nat) name).
Proof.
  revert k. induction addrs as [|[name las] rest IH]; intros k; cbn [rows_appended].
  - inversion 1.
  - intros [Hx|Hx]%elem_of_app.
    + destruct (decide _) as [E|]; [|inversion Hx].
      exists 0%nat, name, las. now rewrite Nat.add_0_r.
    + destruct (IH _ Hx) as (i & n & l & Hi & Hq).
      exists (S i), n, l. replace (k + S i)%nat with (S k + i)%nat by lia. now split.
Qed.

(** ** Bounding boxes after a run *)

(** The empty index is consistent at every level, and in it no file is
    pointed to. *)
Lemma empty_index_consistent (country region : pystr) :
  consistent (region_coordinates ∅ (run_output_dir country region))
    (select_inventory_bounds
       (rows_of localities ∅ (inventory_path (run_output_dir country region))))
  /\ consistent (country_coordinates ∅ (path_join RESULTS_FOLDERPATH country))
       (select_inventory_bounds
          (rows_of regions ∅ (inventory_path (path_join RESULTS_FOLDERPATH country))))
  /\ forall p, ~ referenced ∅ country region p.
Proof.
  split; [|split].
  - unfold region_coordinates, rows_of, read_db. rewrite lookup_empty.
    repeat split.
  - unfold country_coordinates, rows_of, read_db. rewrite lookup_empty.
    repeat split.
  - intros p [(r & Hr & _)|(r & r' & Hr & _)];
      unfold rows_of, read_db in Hr; rewrite lookup_empty in Hr; inversion Hr.
Qed.

Section RunEnvelope.

Variable clk : nat -> pystr.
Variables country region : pystr.
Variable addrs : address_dict.
Variable nodes_dict : gmap Z (Q * Q).
Variable fs : filesystem.

Local Abbreviation country_dir := (path_join RESULTS_FOLDERPATH country).
Local Abbreviation output_dir := (run_output_dir country region).
Local Abbreviation fs' := (ingest clk country region addrs nodes_dict fs).
Local Abbreviation fs1 :=
  (process_addresses_to_db clk 0 addrs nodes_dict (run_output_dir country region) fs).
Local Abbreviation new_rows := (run_locality_rows clk country region addrs nodes_dict fs).

Lemma ingest_addresses_processed (q : pystr) :
  rows_of addresses fs' q = rows_of addresses fs1 q.
Proof. now rewrite ingest_addresses, process_addresses_rows. Qed.

Lemma table_coordinates_mono (q : pystr) (c : Q * Q) :
  c ∈ table_coordinates fs q -> c ∈ table_coordinates fs' q.
Proof.
  unfold table_coordinates. rewrite ingest_addresses, map_app. intros H.
  apply elem_of_app. now left.
Qed.

Lemma new_row_in_region (r : inventory_row) (c : Q * Q) :
  r ∈ new_rows -> c ∈ table_coordinates fs' (row_path r) ->
  c ∈ region_coordinates fs' output_dir.
Proof.
  intros Hr Hc. unfold region_coordinates. apply list_elem_of_bind. exists r.
  split; [assumption|]. rewrite ingest_localities. unfold run_output_dir.
  rewrite decide_True by reflexivity. apply elem_of_app. now right.
Qed.

(** The rows a run writes to the region inventory are exact. *)
Lemma new_rows_exact (r : inventory_row) :
  r ∈ new_rows -> envelope (table_coordinates fs' (row_path r)) (row_bounds r).
Proof.
  intros Hr. apply locality_rows_elem in Hr as (i & name & las & Hi & Hn & Hp & Hb & Hne).
  apply envelope_consistent. unfold table_coordinates. rewrite ingest_addresses_processed.
  split.
  - rewrite Hb. apply select_address_bounds_consistent.
  - intros E. apply Hne. now apply fmap_nil_inv in E.
Qed.

(** A point found beneath a file after the run was there before, or lies
    beneath a row the run wrote to the region inventory. *)
Lemma table_coordinates_growth (q : pystr) (c : Q * Q) :
  file_names_settled clk country region addrs fs ->
  referenced fs country region q ->
  c ∈ table_coordinates fs' q ->
  c ∈ table_coordinates fs q
  \/ c ∈ new_rows ≫= (fun r => table_coordinates fs' (row_path r)).
Proof.
  intros Hclock Href Hc. pose proof Hc as Hc'. unfold table_coordinates in Hc.
  rewrite ingest_addresses, map_app in Hc. apply elem_of_app in Hc as [Hc|Hc]; [now left|].
  right. apply list_elem_of_fmap in Hc as (x & _ & Hx).
  apply rows_appended_elem in Hx as (i & name & las & Hi & Hq).
  rewrite Nat.add_0_l in Hq.
  destruct (Hclock i name las Hi) as [Hsame|Hfresh]; [|now rewrite <- Hq in Hfresh].
  rewrite Hsame in Hq.
  destruct (locality_rows_complete clk (length addrs) output_dir addrs fs1 i name las Hi)
    as (r & Hr & _ & Hp).
  - rewrite <- Hq, <- ingest_addresses_processed. intros E.
    unfold table_coordinates in Hc'. rewrite E in Hc'. inversion Hc'.
  - apply list_elem_of_bind. exists r. split; [|exact Hr]. now rewrite Hp, <- Hq.
Qed.

Lemma new_coordinates_in_region (c : Q * Q) :
  c ∈ new_rows ≫= (fun r => table_coordinates fs' (row_path r)) ->
  c ∈ region_coordinates fs' output_dir.
Proof. intros (r & Hc & Hr)%list_elem_of_bind. now apply (new_row_in_region r). Qed.

Lemma region_coordinates_mono (d : pystr) (c : Q * Q) :
  c ∈ region_coordinates fs d -> c ∈ region_coordinates fs' d.
Proof.
  unfold region_coordinates. intros (r & Hc & Hr)%list_elem_of_bind.
  apply list_elem_of_bind. exists r. split; [now apply table_coordinates_mono|].
  rewrite ingest_localities. apply elem_of_app. now left.
Qed.

Lemma region_coordinates_growth (rr : inventory_row) (c : Q * Q) :
  file_names_settled clk country region addrs fs ->
  rr ∈ rows_of regions fs (inventory_path country_dir) ->
  c ∈ region_coordinates fs' (row_path rr) ->
  c ∈ region_coordinates fs (row_path rr) \/ c ∈ region_coordinates fs' output_dir.
Proof.
  intros Hclock Hrr (r & Hc & Hr)%list_elem_of_bind.
  rewrite ingest_localities in Hr. apply elem_of_app in Hr as [Hr|Hr].
  - destruct (table_coordinates_growth (row_path r) c Hclock) as [H|H]; [|assumption| |].
    + right. exists rr, r. auto.
    + left. apply list_elem_of_bind. eauto.
    + right. now apply new_coordinates_in_region.
  - right. destruct (decide _); [|inversion Hr]. now apply (new_row_in_region r).
Qed.

(** The region inventory stays consistent, so the bounds the run reads from it
    describe every point beneath the region. *)
Lemma region_consistent_after :
  file_names_settled clk country region addrs fs ->
  consistent (region_coordinates fs output_dir)
    (select_inventory_bounds (rows_of localities fs (inventory_path output_dir))) ->
  consistent (region_coordinates fs' output_dir)
    (run_region_bounds clk country region addrs nodes_dict fs).
Proof.
  intros Hclock Hold. unfold run_region_bounds.
  apply (consistent_merge _ _ (region_coordinates fs output_dir)
           (new_rows ≫= fun r => table_coordinates fs' (row_path r))).
  - exact Hold.
  - apply consistent_of_exact_rows. apply new_rows_exact.
  - apply region_coordinates_mono.
  - apply new_coordinates_in_region.
  - intros c (r & Hcr & Hr)%list_elem_of_bind.
    rewrite ingest_localities, decide_True in Hr by reflexivity.
    apply elem_of_app in Hr as [Hr|Hr].
    + destruct (table_coordinates_growth (row_path r) c Hclock) as [H|H];
        [left; eauto | assumption | left | now right].
      apply list_elem_of_bind. eauto.
    + right. apply list_elem_of_bind. eauto.
Qed.

Lemma region_rows_cases :
  (run_region_rows clk country region addrs nodes_dict fs = []
   /\ bounds_min_lat (run_region_bounds clk country region addrs nodes_dict fs) = None)
  \/ (run_region_rows clk country region addrs nodes_dict fs
      = [row_of_bounds region output_dir
           (run_region_bounds clk country region addrs nodes_dict fs)]
      /\ is_Some (bounds_min_lat (run_region_bounds clk country region addrs nodes_dict fs))).
Proof.
  unfold run_region_rows. destruct (bounds_min_lat _); [right | left]; eauto.
Qed.

(** The same for the country inventory. *)
Lemma country_consistent_after :
  file_names_settled clk country region addrs fs ->
  consistent (region_coordinates fs output_dir)
    (select_inventory_bounds (rows_of localities fs (inventory_path output_dir))) ->
  consistent (country_coordinates fs country_dir)
    (select_inventory_bounds (rows_of regions fs (inventory_path country_dir))) ->
  consistent (country_coordinates fs' country_dir)
    (run_country_bounds clk country region addrs nodes_dict fs).
Proof.
  intros Hclock Hreg Hold. unfold run_country_bounds.
  pose proof (region_consistent_after Hclock Hreg) as Hnew.
  assert (Hrow : forall c, c ∈ region_coordinates fs' output_dir ->
            c ∈ run_region_rows clk country region addrs nodes_dict fs
                ≫= (fun r => region_coordinates fs' (row_path r))).
  { intros c Hc. destruct region_rows_cases as [[_ E]|[-> _]].
    - exfalso. assert (Hne : region_coordinates fs' output_dir <> []).
      { intros E'. rewrite E' in Hc. inversion Hc. }
      apply (consistent_min_lat _ _ Hnew) in Hne as [m Hm]. congruence.
    - rewrite bind_cons, row_path_of_bounds. apply elem_of_app. now left. }
  apply (consistent_merge _ _ (country_coordinates fs country_dir)
           (run_region_rows clk country region addrs nodes_dict fs
              ≫= fun r => region_coordinates fs' (row_path r))).
  - exact Hold.
  - destruct region_rows_cases as [[-> E]|[-> _]].
    + cbn. repeat split; reflexivity.
    + rewrite select_single_row, bind_cons, row_path_of_bounds.
      change ([] ≫= _) with (@nil (Q * Q)). now rewrite app_nil_r.
  - intros c (r & Hc & Hr)%list_elem_of_bind. apply list_elem_of_bind. exists r.
    split; [now apply region_coordinates_mono|].
    rewrite ingest_regions. apply elem_of_app. now left.
  - intros c (r & Hc & Hr)%list_elem_of_bind. apply list_elem_of_bind. exists r.
    split; [assumption|]. rewrite ingest_regions, decide_True by reflexivity.
    apply elem_of_app. now right.
  - intros c (r & Hc & Hr)%list_elem_of_bind.
    rewrite ingest_regions, decide_True in Hr by reflexivity.
    apply elem_of_app in Hr as [Hr|Hr].
    + destruct (region_coordinates_growth r c Hclock Hr Hc) as [H|H].
      * left. apply list_elem_of_bind. eauto.
      * right. now apply Hrow.
    + right. apply list_elem_of_bind. eauto.
Qed.

(** X13.  Over an index whose region and country inventories agree with the
    points reachable beneath them through the inventory rows, a run in which
    every locality keeps its file name between the two passes (or was
    written to a file no inventory row pointed to) adds to the region
    inventory only rows whose bounds are the envelope of the points of the
    locality table they point to, to the country inventory at most a row for
    the region whose bounds are the envelope of all points reachable beneath
    the region, and to the global inventory at most a row for the country
    whose bounds are the envelope of all points reachable beneath the
    country.  An envelope exists only for a non-empty set of points and has
    no NULL bound, so nothing is written for an empty subtree.  The two
    inventories agree with the points beneath them again afterwards. *)
Theorem inventory_rows_are_envelopes :
  file_names_settled clk country region addrs fs ->
  consistent (region_coordinates fs output_dir)
    (select_inventory_bounds (rows_of localities fs (inventory_path output_dir))) ->
  consistent (country_coordinates fs country_dir)
    (select_inventory_bounds (rows_of regions fs (inventory_path country_dir))) ->
  (exists new,
      rows_of localities fs' (inventory_path output_dir)
      = rows_of localities fs (inventory_path output_dir) ++ new
      /\ forall r, r ∈ new ->
           envelope (table_coordinates fs' (row_path r)) (row_bounds r))
  /\ (exists new,
         rows_of regions fs' (inventory_path country_dir)
         = rows_of regions fs (inventory_path country_dir) ++ new
         /\ (length new <= 1)%nat
         /\ forall r, r ∈ new ->
              row_name r = region
              /\ envelope (region_coordinates fs' (row_path r)) (row_bounds r))
  /\ (exists new,
         rows_of countries fs' (inventory_path RESULTS_FOLDERPATH)
         = rows_of countries fs (inventory_path RESULTS_FOLDERPATH) ++ new
         /\ (length new <= 1)%nat
         /\ forall r, r ∈ new ->
              row_name r = country
              /\ envelope (country_coordinates fs' (row_path r)) (row_bounds r))
  /\ consistent (region_coordinates fs' output_dir)
       (select_inventory_bounds (rows_of localities fs' (inventory_path output_dir)))
  /\ consistent (country_coordinates fs' country_dir)
       (select_inventory_bounds (rows_of regions fs' (inventory_path country_dir))).
Proof.
  intros Hclock Hreg Hcty.
  pose proof (region_consistent_after Hclock Hreg) as Hreg'.
  pose proof (country_consistent_after Hclock Hreg Hcty) as Hcty'.
  split; [|split; [|split; [|split]]].
  - exists new_rows. split; [|apply new_rows_exact].
    now rewrite ingest_localities, decide_True.
  - exists (run_region_rows clk country region addrs nodes_dict fs).
    split; [now rewrite ingest_regions, decide_True|].
    destruct region_rows_cases as [[-> _]|[-> Hsome]]; cbn [length].
    + split; [lia | inversion 1].
    + split; [lia|]. intros r ->%list_elem_of_singleton.
      rewrite row_name_of_bounds, row_path_of_bounds, row_bounds_of_bounds.
      split; [reflexivity|]. apply envelope_consistent. split; [assumption|].
      now apply (consistent_min_lat _ _ Hreg').
  - exists (run_country_rows clk country region addrs nodes_dict fs).
    split; [now rewrite ingest_countries, decide_True|].
    unfold run_country_rows.
    destruct (run_region_rows _ _ _ _ _ _); [split; [cbn; lia | inversion 1]|].
    destruct (bounds_min_lat (run_country_bounds _ _ _ _ _ _)) eqn:E; cbn [length].
    + split; [lia|]. intros r ->%list_elem_of_singleton.
      rewrite row_name_of_bounds, row_path_of_bounds, row_bounds_of_bounds.
      split; [reflexivity|]. apply envelope_consistent. split; [assumption|].
      apply (consistent_min_lat _ _ Hcty'). eauto.
    + split; [lia | inversion 1].
  - now rewrite ingest_localities, decide_True.
  - now rewrite ingest_regions, decide_True.
Qed.

End RunEnvelope.

(** ** Resolving what a run wrote *)

Lemma update_country_inventory_has_table {R} (tbl : database -> option (list R))
    (country_dir region : pystr) (b : bounds) (fs : filesystem) (q : pystr) :
  (forall t d, is_Some (tbl d) -> is_Some (tbl (set_regions t d))) ->
  has_table tbl fs q -> has_table tbl (update_country_inventory country_dir region b fs) q.
Proof.
  intros Hf H. unfold update_country_inventory.
  apply (has_table_update tbl (set_regions _)); [intros d; apply Hf | assumption].
Qed.

Lemma update_global_inventory_has_table {R} (tbl : database -> option (list R))
    (country country_dir : pystr) (b : bounds) (fs : filesystem) (q : pystr) :
  (forall t d, is_Some (tbl d) -> is_Some (tbl (set_countries t d))) ->
  has_table tbl fs q -> has_table tbl (update_global_inventory country country_dir b fs) q.
Proof.
  intros Hf H. unfold update_global_inventory.
  apply (has_table_update tbl (set_countries _)); [intros d; apply Hf | assumption].
Qed.

Lemma update_country_inventory_creates (country_dir region : pystr) (b : bounds)
    (fs : filesystem) :
  has_table regions (update_country_inventory country_dir region b fs)
    (inventory_path country_dir).
Proof. unfold update_country_inventory. now apply has_table_insert. Qed.

Lemma update_global_inventory_creates (country country_dir : pystr) (b : bounds)
    (fs : filesystem) :
  has_table countries (update_global_inventory country country_dir b fs)
    (inventory_path RESULTS_FOLDERPATH).
Proof. unfold update_global_inventory. now apply has_table_insert. Qed.


Lemma first_match_exists {R} (p : R -> bool) (t : list R) (x : R) :
  x ∈ t -> p x = true -> exists y, first_match (fun r => p r = true) t y.
Proof.
  intros Hx Hp. destruct (fetchone_where p t) as [y|] eqn:E.
  - exists y. now apply fetchone_where_Some.
  - pose proof (proj1 (fetchone_where_None p t) E x Hx). congruence.
Qed.

Lemma first_match_elem {R} (P : R -> Prop) (t : list R) (x : R) :
  first_match P t x -> x ∈ t /\ P x.
Proof.
  intros (pre & post & -> & Hx & _). split; [|assumption].
  apply elem_of_app. right. left.
Qed.

Lemma first_match_single {R} (P : R -> Prop) (x : R) : P x -> first_match P [x] x.
Proof. intros H. exists [], []. split; [reflexivity|]. split; [assumption | inversion 1]. Qed.

Section Resolve.

Variable clk : nat -> pystr.
Variables country region : pystr.
Variable addrs : address_dict.
Variable nodes_dict : gmap Z (Q * Q).
Variable fs : filesystem.

Local Abbreviation country_dir := (path_join RESULTS_FOLDERPATH country).
Local Abbreviation output_dir := (run_output_dir country region).
Local Abbreviation fs' := (ingest clk country region addrs nodes_dict fs).
Local Abbreviation fs1 :=
  (process_addresses_to_db clk 0 addrs nodes_dict (run_output_dir country region) fs).
Local Abbreviation new_rows := (run_locality_rows clk country region addrs nodes_dict fs).


Lemma ingest_has_localities :
  has_table localities fs' (inventory_path output_dir).
Proof.
  unfold ingest; cbv zeta.
  repeat match goal with |- context [match bounds_min_lat ?b with _ => _ end] =>
    destruct (bounds_min_lat b) end;
  repeat first
    [ apply update_global_inventory_has_table; [now intros; cbn|]
    | apply update_country_inventory_has_table; [now intros; cbn|] ];
  apply create_inventory_db_creates.
Qed.

Lemma ingest_has_regions :
  run_region_rows clk country region addrs nodes_dict fs <> [] ->
  has_table regions fs' (inventory_path country_dir).
Proof.
  unfold run_region_rows, ingest; cbv zeta. rewrite region_bounds_read'.
  destruct (bounds_min_lat (run_region_bounds _ _ _ _ _ _)); [intros _ | congruence].
  match goal with |- context [match bounds_min_lat ?b with _ => _ end] =>
    destruct (bounds_min_lat b) end;
  repeat first [ apply update_global_inventory_has_table; [now intros; cbn|] ];
  apply update_country_inventory_creates.
Qed.

Lemma ingest_has_countries :
  run_country_rows clk country region addrs nodes_dict fs <> [] ->
  has_table countries fs' (inventory_path RESULTS_FOLDERPATH).
Proof.
  unfold run_country_rows, run_region_rows, ingest; cbv zeta. rewrite region_bounds_read'.
  destruct (bounds_min_lat (run_region_bounds _ _ _ _ _ _)) eqn:Er; [|congruence].
  rewrite country_bounds_read' by eauto.
  destruct (bounds_min_lat (run_country_bounds _ _ _ _ _ _)); [intros _ | congruence].
  apply update_global_inventory_creates.
Qed.


End Resolve.

(** ** Two names, one file *)


(** ** The first pass: collecting addresses *)

Lemma dict_append_keys {A} (k : pystr) (v : A) (d : list (pystr * list A)) :
  (dict_append k v d).*1 = if decide (k ∈ d.*1) then d.*1 else d.*1 ++ [k].
Proof.
  induction d as [|[k' vs] d IH]; cbn.
  - rewrite decide_False by inversion 1. reflexivity.
  - destruct (decide (k' = k)) as [->|Hne]; cbn.
    + rewrite decide_True by left. reflexivity.
    + rewrite IH. destruct (decide (k ∈ d.*1)) as [Hin|Hnin].
      * rewrite decide_True by now right. reflexivity.
      * rewrite decide_False; [reflexivity|].
        intros [->|H]%elem_of_cons; [congruence | contradiction].
Qed.

Lemma dict_get_append {A} (k k' : pystr) (v : A) (d : list (pystr * list A)) :
  dict_get k' (dict_append k v d)
  = if decide (k = k') then Some (default [] (dict_get k d) ++ [v]) else dict_get k' d.
Proof.
  induction d as [|[k0 vs] d IH]; cbn.
  - destruct (decide (k = k')); reflexivity.
  - destruct (decide (k0 = k)) as [->|Hne]; cbn.
    + destruct (decide (k = k')); reflexivity.
    + rewrite IH. destruct (decide (k = k')) as [->|Hne'].
      * now rewrite decide_False.
      * reflexivity.
Qed.

Lemma dict_get_elem {A} (k : pystr) (v : A) (d : list (pystr * A)) :
  dict_get k d = Some v -> (k, v) ∈ d.
Proof.
  induction d as [|[k' v'] d IH]; cbn; [discriminate|].
  destruct (decide (k' = k)) as [->|Hne].
  - intros [= ->]. left.
  - intros H. right. now apply IH.
Qed.

Lemma dict_elem_get {A} (k : pystr) (v : A) (d : list (pystr * A)) :
  NoDup d.*1 -> (k, v) ∈ d -> dict_get k d = Some v.
Proof.
  induction d as [|[k' v'] d IH]; cbn; [inversion 2|].
  intros [Hnin Hnd]%NoDup_cons [[= -> ->]|Hin]%elem_of_cons.
  - now rewrite decide_True.
  - rewrite decide_False; [now apply IH|].
    intros ->. apply Hnin. apply list_elem_of_fmap. now exists (k, v).
Qed.

Lemma address_of_way_step (self : AddressCollector.t) (w : Way) :
  AddressCollector.way self w
  = match address_of_way (AddressCollector.specific_locality self) w with
    | Some (locality, a) =>
        AddressCollector.Build
          (AddressCollector.node_refs self ∪ list_to_set (w_nodes w))
          (dict_append locality a (AddressCollector.addresses self))
          (AddressCollector.specific_locality self)
          (S (AddressCollector.total_ways self))
          (S (AddressCollector.processed_ways self))
    | None =>
        AddressCollector.Build (AddressCollector.node_refs self)
          (AddressCollector.addresses self) (AddressCollector.specific_locality self)
          (S (AddressCollector.total_ways self))
          (if match w_tags w !! str "addr:street", w_tags w !! str "addr:housenumber",
                     w_tags w !! str "addr:city" with
              | Some _, Some _, Some locality =>
                  AddressCollector.rejects (AddressCollector.specific_locality self) locality
              | _, _, _ => false
              end
           then AddressCollector.processed_ways self
           else S (AddressCollector.processed_ways self))
    end.
Proof.
  unfold AddressCollector.way, address_of_way.
  destruct (w_tags w !! str "addr:street"), (w_tags w !! str "addr:housenumber"),
    (w_tags w !! str "addr:city"); try reflexivity.
  now destruct (AddressCollector.rejects _ _).
Qed.

Lemma apply_file_specific_locality (self : AddressCollector.t) (ways : list Way) :
  AddressCollector.specific_locality (AddressCollector.apply_file self ways)
  = AddressCollector.specific_locality self.
Proof.
  unfold AddressCollector.apply_file. revert self.
  induction ways as [|w ways IH]; intros self; [reflexivity|]. cbn [fold_left].
  rewrite IH, address_of_way_step. now destruct (address_of_way _ w) as [[? ?]|].
Qed.

(** The insertion-ordered list keeps the keys of the dict distinct. *)
Lemma collected_localities_unique (self : AddressCollector.t) (ways : list Way) :
  NoDup (AddressCollector.addresses self).*1 ->
  NoDup (AddressCollector.addresses (AddressCollector.apply_file self ways)).*1.
Proof.
  unfold AddressCollector.apply_file. revert self.
  induction ways as [|w ways IH]; intros self Hnd; [assumption|]. cbn [fold_left].
  apply IH. rewrite address_of_way_step.
  destruct (address_of_way _ w) as [[locality a]|]; cbn; [|assumption].
  rewrite dict_append_keys. destruct (decide _); [assumption|].
  apply NoDup_app. split; [assumption|]. split; [|apply NoDup_singleton].
  intros x Hx ->%list_elem_of_singleton. contradiction.
Qed.

Lemma addresses_of_cons (specific_locality : option pystr) (L : pystr) (w : Way)
    (ways : list Way) :
  addresses_of specific_locality L (w :: ways)
  = match address_of_way specific_locality w with
    | Some (locality, a) => if decide (locality = L) then [a] else []
    | None => []
    end ++ addresses_of specific_locality L ways.
Proof.
  unfold addresses_of. cbn [omap list_omap].
  destruct (address_of_way specific_locality w) as [[locality a]|]; [|reflexivity].
  now destruct (decide (locality = L)).
Qed.

Lemma collected_get (L : pystr) (ways : list Way) (self : AddressCollector.t) :
  dict_get L (AddressCollector.addresses self) <> Some [] ->
  dict_get L (AddressCollector.addresses (AddressCollector.apply_file self ways))
  = match default [] (dict_get L (AddressCollector.addresses self))
          ++ addresses_of (AddressCollector.specific_locality self) L ways with
    | [] => None
    | las => Some las
    end.
Proof.
  unfold AddressCollector.apply_file. revert self.
  induction ways as [|w ways IH]; intros self Hne; cbn [fold_left].
  - unfold addresses_of. cbn [omap list_omap]. rewrite app_nil_r.
    destruct (dict_get L (AddressCollector.addresses self)) as [[|a las]|];
      [congruence | reflexivity | reflexivity].
  - rewrite addresses_of_cons, address_of_way_step.
    destruct (address_of_way (AddressCollector.specific_locality self) w)
      as [[locality a]|] eqn:E.
    + rewrite IH; cbn [AddressCollector.addresses AddressCollector.specific_locality];
        rewrite dict_get_append; destruct (decide (locality = L)) as [->|Hn].
      * cbn [from_option id]. now rewrite <- app_assoc.
      * reflexivity.
      * intros [= H]. now apply app_eq_nil in H as [_ [=]].
      * assumption.
    + rewrite IH; cbn [AddressCollector.addresses AddressCollector.specific_locality];
        [reflexivity | assumption].
Qed.

Lemma collected_get_init (specific_locality : option pystr) (ways : list Way) (L : pystr) :
  dict_get L (AddressCollector.addresses
                (AddressCollector.apply_file (AddressCollector.init specific_locality) ways))
  = match addresses_of specific_locality L ways with
    | [] => None
    | las => Some las
    end.
Proof. rewrite collected_get; [reflexivity | discriminate]. Qed.

(** X1.  After the first pass a locality's entry is the list of the
    addresses of the ways tagged with street, house number and that city, in
    file order; a locality no such way names has no entry. *)
Theorem collected_addresses_by_locality (specific_locality : option pystr)
    (ways : list Way) (L : pystr) :
  dict_get L (AddressCollector.addresses
                (AddressCollector.apply_file (AddressCollector.init specific_locality) ways))
  = match addresses_of specific_locality L ways with
    | [] => None
    | las => Some las
    end.
Proof. apply collected_get_init. Qed.

Lemma all_refs_append (k : pystr) (a : way_address) (d : address_dict) (x : Z) :
  x ∈ all_refs (dict_append k a d) <-> x ∈ all_refs d \/ x ∈ a.2.
Proof using Type.
  clear lower isspace.
  unfold all_refs. induction d as [|[k' vs] d IH]; cbn [dict_append].
  - rewrite !bind_cons. cbn. rewrite !elem_of_app. split.
    + intros [[H|H]|H]; [now right | inversion H | inversion H].
    + intros [H|H]; [inversion H | now left; left].
  - destruct (decide (k' = k)) as [->|Hne]; rewrite !bind_cons; cbn [snd].
    + rewrite bind_app, bind_cons. cbn [mbind list_bind]. rewrite !elem_of_app.
      split.
      * intros [[H|[H|H]]|H]; [tauto | tauto | inversion H | tauto].
      * intros [[H|H]|H]; [tauto | tauto | left; right; now left].
    + rewrite !elem_of_app, IH. tauto.
Qed.

Lemma all_refs_elem (d : address_dict) (x : Z) :
  x ∈ all_refs d
  <-> exists L las street' housenumber' refs,
        (L, las) ∈ d /\ (street', housenumber', refs) ∈ las /\ x ∈ refs.
Proof.
  unfold all_refs. rewrite list_elem_of_bind. split.
  - intros ([L las] & (([s h] & refs) & Hx & Ha)%list_elem_of_bind & Hd). cbn in *.
    exists L, las, s, h, refs. auto.
  - intros (L & las & s & h & refs & Hd & Ha & Hx). exists (L, las). split; [|assumption].
    apply list_elem_of_bind. exists (s, h, refs). auto.
Qed.

Lemma collected_node_refs_elem (specific_locality : option pystr) (ways : list Way) (x : Z) :
  x ∈ AddressCollector.node_refs
        (AddressCollector.apply_file (AddressCollector.init specific_locality) ways)
  <-> exists L las street' housenumber' refs,
        (L, las) ∈ AddressCollector.addresses
                     (AddressCollector.apply_file (AddressCollector.init specific_locality) ways)
        /\ (street', housenumber', refs) ∈ las /\ x ∈ refs.
Proof.
  rewrite <- all_refs_elem.
  assert (Hgen : forall self,
            (x ∈ AddressCollector.node_refs self
             <-> x ∈ all_refs (AddressCollector.addresses self)) ->
            x ∈ AddressCollector.node_refs (AddressCollector.apply_file self ways)
            <-> x ∈ all_refs (AddressCollector.addresses
                                (AddressCollector.apply_file self ways))).
  { unfold AddressCollector.apply_file.
    induction ways as [|w ways IH]; intros self Hinv; [assumption|]. cbn [fold_left].
    apply IH. rewrite address_of_way_step.
    destruct (address_of_way _ w) as [[locality [[s h] refs]]|] eqn:E;
      cbn [AddressCollector.node_refs AddressCollector.addresses]; [|assumption].
    rewrite all_refs_append, elem_of_union, Hinv, elem_of_list_to_set. cbn [snd].
    unfold address_of_way in E.
    destruct (w_tags w !! str "addr:street"), (w_tags w !! str "addr:housenumber"),
      (w_tags w !! str "addr:city"); try discriminate.
    destruct (AddressCollector.rejects _ _); [discriminate|].
    injection E as _ _ _ <-. reflexivity. }
  apply Hgen. cbn. split; [set_solver | inversion 1].
Qed.

(** X2.  After the first pass [node_refs] holds exactly the node references
    of the collected addresses: every reference of every address is wanted
    in the second pass, and nothing else is. *)
Theorem collected_node_refs (specific_locality : option pystr) (ways : list Way) (x : Z) :
  let c := AddressCollector.apply_file (AddressCollector.init specific_locality) ways in
  x ∈ AddressCollector.node_refs c
  <-> exists L las street' housenumber' refs,
        (L, las) ∈ AddressCollector.addresses c
        /\ (street', housenumber', refs) ∈ las /\ x ∈ refs.
Proof. apply collected_node_refs_elem. Qed.

Lemma dict_get_None {A} (k : pystr) (d : list (pystr * A)) :
  dict_get k d = None <-> k ∉ d.*1.
Proof.
  induction d as [|[k' v] d IH]; cbn.
  - split; [intros _; inversion 1 | reflexivity].
  - destruct (decide (k' = k)) as [->|Hne].
    + split; [discriminate|]. intros H. exfalso. apply H. left.
    + rewrite IH. split.
      * intros H [->|Hin]%elem_of_cons; [congruence | contradiction].
      * intros H Hin. apply H. now right.
Qed.

(** X3.  A collector asked for one locality collects no other: every key of
    [addresses] is that locality. *)
Theorem collected_only_specific_locality (c : N) (sl : pystr) (ways : list Way)
    (L : pystr) :
  L ∈ (AddressCollector.addresses
         (AddressCollector.apply_file (AddressCollector.init (Some (c :: sl))) ways)).*1 ->
  L = c :: sl.
Proof.
  intros Hin. destruct (decide (L = c :: sl)) as [|Hne]; [assumption|]. exfalso.
  revert Hin. apply dict_get_None. rewrite collected_get_init.
  assert (E : addresses_of (Some (c :: sl)) L ways = []); [|now rewrite E].
  unfold addresses_of. induction ways as [|w ways IH]; [reflexivity|].
  cbn [omap list_omap]. rewrite IH.
  destruct (address_of_way (Some (c :: sl)) w) as [[locality a]|] eqn:E; [|reflexivity].
  destruct (decide (locality = L)) as [->|]; [|reflexivity]. exfalso.
  unfold address_of_way in E.
  destruct (w_tags w !! str "addr:street") as [s0|],
    (w_tags w !! str "addr:housenumber") as [h0|],
    (w_tags w !! str "addr:city") as [city|]; try discriminate.
  cbn [AddressCollector.rejects] in E. destruct (bool_decide_reflect (city <> c :: sl)).
  - discriminate.
  - injection E as <- _. apply Hne. now apply dec_stable.
Qed.

(** X4.  The counters after the first pass: [total_ways] is the number of
    ways shown, and [processed_ways] falls short of it by the ways of another
    locality than the one asked for; with no locality asked for the two are
    equal. *)
Theorem collector_counters (specific_locality : option pystr) (ways : list Way) :
  let c := AddressCollector.apply_file (AddressCollector.init specific_locality) ways in
  AddressCollector.total_ways c = length ways
  /\ (AddressCollector.processed_ways c
      + length (List.filter (filtered_out specific_locality) ways))%nat
     = length ways
  /\ (specific_locality = None -> AddressCollector.processed_ways c = length ways).
Proof.
  cbn zeta.
  assert (Hgen : forall self,
            AddressCollector.specific_locality self = specific_locality ->
            AddressCollector.total_ways (AddressCollector.apply_file self ways)
            = (AddressCollector.total_ways self + length ways)%nat
            /\ (AddressCollector.processed_ways (AddressCollector.apply_file self ways)
                + length (List.filter (filtered_out specific_locality) ways))%nat
               = (AddressCollector.processed_ways self + length ways)%nat).
  { unfold AddressCollector.apply_file.
    induction ways as [|w ways IH]; intros self Hsl; cbn [fold_left length List.filter].
    - split; lia.
    - destruct (IH (AddressCollector.way self w)) as [Ht Hp].
      { rewrite address_of_way_step. now destruct (address_of_way _ w) as [[? ?]|]. }
      rewrite Ht, address_of_way_step. clear Ht.
      revert Hp. rewrite address_of_way_step. unfold address_of_way, filtered_out. rewrite Hsl.
      destruct (w_tags w !! str "addr:street"), (w_tags w !! str "addr:housenumber"),
        (w_tags w !! str "addr:city"); cbn;
        try destruct (AddressCollector.rejects specific_locality _); cbn; lia. }
  destruct (Hgen (AddressCollector.init specific_locality) eq_refl) as [Ht Hp]. cbn in Ht, Hp.
  split; [exact Ht|]. split; [exact Hp|].
  intros ->. revert Hp.
  replace (List.filter (filtered_out None) ways) with (@nil Way); [cbn; lia|].
  clear. induction ways as [|w ways IH]; [reflexivity|]. cbn [List.filter].
  replace (filtered_out None w) with false; [assumption|].
  unfold filtered_out.
  now destruct (w_tags w !! str "addr:street"), (w_tags w !! str "addr:housenumber"),
    (w_tags w !! str "addr:city").
Qed.

(** ** The second pass: resolving nodes *)

Lemma last_valid_cons (id : Z) (n : Node) (nodes : list Node) :
  last_valid id (n :: nodes)
  = match last_valid id nodes with
    | Some c => Some c
    | None => if decide (n_id n = id) then n_location n else None
    end.
Proof.
  unfold last_valid. cbn [omap list_omap].
  destruct (decide (n_id n = id)); [|now destruct (last _)].
  destruct (n_location n) as [c|]; [apply last_cons | now destruct (last _)].
Qed.

Lemma last_valid_None (id : Z) (nodes : list Node) :
  last_valid id nodes = None
  <-> forall n, n ∈ nodes -> n_id n = id -> n_location n = None.
Proof.
  induction nodes as [|n nodes IH]; [split; [inversion 2 | reflexivity]|].
  rewrite last_valid_cons. destruct (last_valid id nodes) as [c|].
  - split; [discriminate|]. intros H. apply IH. intros m Hm. apply H. now right.
  - destruct (decide (n_id n = id)) as [E|Hne].
    + split.
      * intros Hn m [->|Hm]%elem_of_cons; [auto | now apply IH].
      * intros H. apply H; [left | assumption].
    + split; [|reflexivity]. intros _ m [->|Hm]%elem_of_cons; [congruence | now apply IH].
Qed.

Lemma node_pass_refs (self : NodeCollector.t) (nodes : list Node) :
  NodeCollector.node_refs (NodeCollector.apply_file self nodes) = NodeCollector.node_refs self.
Proof.
  unfold NodeCollector.apply_file. revert self.
  induction nodes as [|n nodes IH]; intros self; [reflexivity|]. cbn [fold_left].
  rewrite IH. unfold NodeCollector.node.
  destruct (n_location n); [|reflexivity]. now destruct (bool_decide _).
Qed.

Lemma node_pass_lookup (self : NodeCollector.t) (nodes : list Node) (id : Z) :
  NodeCollector.nodes_dict (NodeCollector.apply_file self nodes) !! id
  = if decide (id ∈ NodeCollector.node_refs self)
    then match last_valid id nodes with
         | Some c => Some c
         | None => NodeCollector.nodes_dict self !! id
         end
    else NodeCollector.nodes_dict self !! id.
Proof.
  unfold NodeCollector.apply_file. revert self.
  induction nodes as [|n nodes IH]; intros self; cbn [fold_left].
  - now destruct (decide _).
  - rewrite IH, last_valid_cons.
    assert (Hrefs : NodeCollector.node_refs (NodeCollector.node self n)
                    = NodeCollector.node_refs self).
    { unfold NodeCollector.node. destruct (n_location n); [|reflexivity].
      now destruct (bool_decide _). }
    rewrite Hrefs. destruct (decide (id ∈ NodeCollector.node_refs self)) as [Hin|Hnin].
    + destruct (last_valid id nodes) as [c|]; [reflexivity|].
      unfold NodeCollector.node. destruct (decide (n_id n = id)) as [E|Hne].
      * destruct (n_location n) as [c|]; [|reflexivity].
        subst id. rewrite bool_decide_eq_true_2 by assumption. cbn.
        apply lookup_insert_eq.
      * destruct (n_location n) as [c|]; [|reflexivity].
        destruct (bool_decide _); [|reflexivity]. cbn. now apply lookup_insert_ne.
    + unfold NodeCollector.node. destruct (n_location n) as [c|]; [|reflexivity].
      destruct (bool_decide_reflect (n_id n ∈ NodeCollector.node_refs self)); [|reflexivity].
      cbn. apply lookup_insert_ne. intros E. apply Hnin. now rewrite <- E.
Qed.

Lemma resolved_nodes_lookup (node_refs : gset Z) (nodes : list Node) (id : Z) :
  NodeCollector.nodes_dict
    (NodeCollector.apply_file (NodeCollector.init node_refs ∅) nodes) !! id
  = if decide (id ∈ node_refs) then last_valid id nodes else None.
Proof.
  rewrite node_pass_lookup. cbn [NodeCollector.init NodeCollector.node_refs
    NodeCollector.nodes_dict]. rewrite lookup_empty.
  destruct (decide _); [|reflexivity]. now destruct (last_valid id nodes).
Qed.

(** X5.  After the second pass, started on an empty dict, a node id is a key
    of [nodes_dict] exactly when it is wanted and the extract shows a node of
    that id with a valid location; its value is the location of the last
    such node. *)
Theorem resolved_nodes (node_refs : gset Z) (nodes : list Node) (id : Z) :
  NodeCollector.nodes_dict
    (NodeCollector.apply_file (NodeCollector.init node_refs ∅) nodes) !! id
  = if decide (id ∈ node_refs) then last_valid id nodes else None.
Proof. apply resolved_nodes_lookup. Qed.

(** ** The two passes together *)

Lemma insert_address_unchanged (nodes_dict : gmap Z (Q * Q)) (t : list address_row)
    (a : way_address) :
  insert_address nodes_dict t a = t <-> valid_nodes nodes_dict a.2 = [].
Proof.
  destruct a as [[s h] refs]. cbn [insert_address snd].
  destruct (valid_nodes nodes_dict refs) as [|v vs]; [split; reflexivity|].
  split; [|discriminate]. intros H. exfalso.
  apply (f_equal length) in H. rewrite length_app in H. cbn [length] in H. lia.
Qed.

(** X6.  For every address the first pass collected, the points averaged by
    [process_addresses_to_db] are, reference by reference, the last valid
    location the extract shows for that node id, references without one
    being skipped; so the address gets no row exactly when the extract shows
    no valid location for any of its references. *)
Theorem address_resolved_from_extract (ways : list Way) (nodes : list Node)
    (L : pystr) (las : list way_address) (street' housenumber' : pystr) (refs : list Z)
    (t : list address_row) :
  (L, las) ∈ AddressCollector.addresses (collect_addresses ways) ->
  (street', housenumber', refs) ∈ las ->
  valid_nodes (NodeCollector.nodes_dict (collect_nodes ways nodes)) refs
  = omap (fun ref => last_valid ref nodes) refs
  /\ (insert_address (NodeCollector.nodes_dict (collect_nodes ways nodes)) t
        (street', housenumber', refs) = t
      <-> forall ref n, ref ∈ refs -> n ∈ nodes -> n_id n = ref -> n_location n = None).
Proof.
  intros HL Ha.
  assert (Hwanted : forall ref, ref ∈ refs ->
            ref ∈ AddressCollector.node_refs (collect_addresses ways)).
  { intros ref Href. apply collected_node_refs_elem. eauto 10. }
  assert (Hlookup : forall ref, ref ∈ refs ->
            NodeCollector.nodes_dict (collect_nodes ways nodes) !! ref = last_valid ref nodes).
  { intros ref Href. unfold collect_nodes. rewrite resolved_nodes_lookup.
    now rewrite decide_True by auto. }
  split.
  - unfold valid_nodes. clear Ha Hwanted. induction refs as [|r refs IH]; [reflexivity|].
    cbn [omap list_omap]. rewrite Hlookup by left.
    rewrite IH; [reflexivity|]. intros ref Href. apply Hlookup. now right.
  - rewrite insert_address_unchanged. cbn [snd]. rewrite valid_nodes_none. split.
    + intros H ref n Href Hn Hid.
      specialize (H ref Href). rewrite Hlookup in H by assumption.
      now apply (proj1 (last_valid_None ref nodes) H n).
    + intros H ref Href. rewrite Hlookup by assumption. apply last_valid_None.
      intros n Hn Hid. now apply (H ref n).
Qed.

(** ** address_finder.py: from a point to an address *)

Lemma box_contains_in_box (lat lon : Q) (r : inventory_row) :
  box_contains lat lon r = true <-> in_box lat lon r.
Proof.
  unfold box_contains, between, in_box, row_bounds. split.
  - destruct (min_lat r) as [a|], (max_lat r) as [b|], (min_lon r) as [c|],
      (max_lon r) as [d|]; cbn; rewrite ?andb_false_r; try discriminate.
    rewrite !andb_true_iff, !Qle_bool_iff. intros [[? ?] [? ?]].
    exists a, b, c, d. auto.
  - intros (a & b & c & d & [= -> -> -> ->] & ? & ? & ? & ?).
    rewrite !andb_true_iff, !Qle_bool_iff. auto.
Qed.

Lemma first_match_unique {R} (P : R -> Prop) (t : list R) (x y : R) :
  first_match P t x -> first_match P t y -> x = y.
Proof.
  intros (pre & post & -> & Hx & Hpre) (pre' & post' & E & Hy & Hpre').
  revert pre' E Hpre'. induction pre as [|z pre IH]; intros [|z' pre'] E Hpre'.
  - now injection E.
  - injection E as E1 _. exfalso. apply (Hpre' z'); [left | now rewrite <- E1].
  - injection E as E1 _. exfalso. apply (Hpre z); [left | now rewrite E1].
  - injection E as E1 E. apply (IH (fun u Hu => Hpre u (list_elem_of_further _ _ _ Hu)) pre' E).
    intros u Hu. apply Hpre'. now right.
Qed.

Lemma order_by_limit_1_first {R} (key : R -> Q) (t : list R) (x : R) :
  order_by_limit_1 key t = Some x
  <-> first_match (fun r => forall r', r' ∈ t -> (key r <= key r')%Q) t x.
Proof.
  assert (Hfwd : forall t x, order_by_limit_1 key t = Some x ->
            first_match (fun r => forall r', r' ∈ t -> (key r <= key r')%Q) t x).
  { clear t x. induction t as [|y t IH]; intros x; cbn [order_by_limit_1]; [discriminate|].
    destruct (order_by_limit_1 key t) as [best|] eqn:E.
    - destruct (IH best eq_refl) as (pre & post & Ht & Hbest & Hpre).
      destruct (Qle_bool (key y) (key best)) eqn:Ey; intros [= <-].
      + exists [], t. split; [reflexivity|]. split; [|inversion 1].
        apply Qle_bool_iff in Ey.
        intros r' [->|Hr']%elem_of_cons; [apply Qle_refl|].
        eapply Qle_trans; [exact Ey | now apply Hbest].
      + assert (Hlt : (key best < key y)%Q).
        { apply Qnot_le_lt. intros Hle. apply Qle_bool_iff in Hle. congruence. }
        exists (y :: pre), post. split; [now rewrite Ht|]. split.
        * intros r' [->|Hr']%elem_of_cons; [now apply Qlt_le_weak | now apply Hbest].
        * intros u [->|Hu]%elem_of_cons Hall.
          -- apply (Qlt_not_le _ _ Hlt). apply Hall. right. rewrite Ht.
             apply elem_of_app. right. left.
          -- apply (Hpre u Hu). intros r' Hr'. apply Hall. now right.
    - intros [= <-]. destruct t as [|z t]; [|cbn in E; destruct (order_by_limit_1 key t);
        [destruct (Qle_bool _ _)|]; discriminate].
      exists [], []. split; [reflexivity|]. split; [|inversion 1].
      intros r' ->%list_elem_of_singleton. apply Qle_refl. }
  split; [apply Hfwd|]. intros Hx.
  destruct t as [|y t]; [destruct Hx as (pre & post & E & _); now destruct pre|].
  destruct (order_by_limit_1_least key (y :: t)) as (x' & Hx' & _); [discriminate|].
  rewrite Hx'. f_equal. eapply first_match_unique; [apply Hfwd, Hx' | exact Hx].
Qed.

Lemma find_containing_Some {tbl : database -> option (list inventory_row)}
    (fs : filesystem) (inventory : pystr) (lat lon : Q) (name path : pystr) :
  find_containing tbl fs inventory lat lon = Return (Some (name, path))
  <-> exists t r, table_at tbl fs inventory = Some t /\ first_match (in_box lat lon) t r
                  /\ name = row_name r /\ path = row_path r.
Proof.
  unfold find_containing, table_at. destruct (fs !! inventory) as [d|]; cbn.
  - destruct (tbl d) as [t|].
    + destruct (fetchone_where _ t) as [r|] eqn:E.
      * apply fetchone_where_Some in E.
        apply (first_match_ext _ (in_box lat lon)) in E;
          [|intros y; apply box_contains_in_box].
        split.
        -- intros [= <- <-]. eauto 10.
        -- intros (t' & r' & [= <-] & Hr' & -> & ->).
           now rewrite (first_match_unique _ _ _ _ Hr' E).
      * split; [discriminate|]. intros (t' & r' & [= <-] & Hr' & _).
        apply first_match_elem in Hr' as [Hin Hbox].
        apply box_contains_in_box in Hbox.
        pose proof (proj1 (fetchone_where_None _ _) E r' Hin). congruence.
    + split; [discriminate|]. now intros (? & ? & ? & _).
  - split; [discriminate|]. now intros (? & ? & ? & _).
Qed.

Lemma find_nearest_address_Some (fs : filesystem) (db_path : pystr) (lat lon : Q)
    (s h : pystr) (alat alon : Q) :
  find_nearest_address fs db_path lat lon = Return (Some (s, h, alat, alon))
  <-> exists t r, table_at addresses fs db_path = Some t /\ nearest lat lon t r
                  /\ s = street r /\ h = housenumber r
                  /\ alat = latitude r /\ alon = longitude r.
Proof.
  assert (Hn : forall t r, order_by_limit_1 (distance lat lon) t = Some r <-> nearest lat lon t r).
  { intros t r. rewrite order_by_limit_1_first. unfold nearest.
    split; apply first_match_ext; intros y; split; intros H r' Hr';
      specialize (H r' Hr'); now rewrite ?distance_is_squared_planar in *. }
  unfold find_nearest_address, table_at. destruct (fs !! db_path) as [d|]; cbn.
  - destruct (addresses d) as [t|].
    + destruct (order_by_limit_1 _ t) as [r|] eqn:E.
      * apply Hn in E. split.
        -- intros [= <- <- <- <-]. eauto 10.
        -- intros (t' & r' & [= <-] & Hr' & -> & -> & -> & ->).
           now rewrite (first_match_unique _ _ _ _ Hr' E).
      * split; [discriminate|]. intros (t' & r' & [= <-] & Hr' & _).
        apply Hn in Hr'. congruence.
    + split; [discriminate|]. now intros (? & ? & ? & _).
  - split; [discriminate|]. now intros (? & ? & ? & _).
Qed.

Lemma get_address_steps (fs : filesystem) (lat lon : Q) (a : reverse_geocode) (msg : pystr) :
  get_address fs lat lon = Return (Some a, msg)
  <-> msg = str "OK - Address found." /\ reverse_resolution fs lat lon a.
Proof.
  unfold get_address, find_country, find_region, find_locality, reverse_resolution. split.
  - destruct (find_containing countries _ _ _ _) as [[[cn cd]|]| |] eqn:Ec; try discriminate.
    destruct (find_containing regions _ _ _ _) as [[[rn rd]|]| |] eqn:Er; try discriminate.
    destruct (find_containing localities _ _ _ _) as [[[ln ld]|]| |] eqn:El; try discriminate.
    destruct (find_nearest_address _ _ _ _) as [[[[[s h] alat] alon]|]| |] eqn:Ea;
      try discriminate.
    intros [= <- <-]. split; [reflexivity|].
    apply find_containing_Some in Ec as (G & crow & HG & Hc & -> & ->).
    apply find_containing_Some in Er as (Rg & rrow & HRg & Hr & -> & ->).
    apply find_containing_Some in El as (L & lrow & HL & Hl & -> & ->).
    apply find_nearest_address_Some in Ea as (A & arow & HA & Ha & -> & -> & -> & ->).
    exists G, crow, Rg, rrow, L, lrow, A, arow. repeat split; assumption.
  - intros [-> (G & crow & Rg & rrow & L & lrow & A & arow
                & HG & Hc & HRg & Hr & HL & Hl & HA & Ha & ->)].
    rewrite (proj2 (find_containing_Some fs _ lat lon (row_name crow) (row_path crow)))
      by eauto 10.
    rewrite (proj2 (find_containing_Some fs _ lat lon (row_name rrow) (row_path rrow)))
      by eauto 10.
    rewrite (proj2 (find_containing_Some fs _ lat lon (row_name lrow) (row_path lrow)))
      by eauto 10.
    rewrite (proj2 (find_nearest_address_Some fs _ lat lon (street arow) (housenumber arow)
                      (latitude arow) (longitude arow))) by eauto 10.
    reflexivity.
Qed.


(** ** A run and the reverse lookup *)

Lemma envelope_in_box (coords : list (Q * Q)) (r : inventory_row) (c : Q * Q) :
  envelope coords (row_bounds r) -> c ∈ coords -> in_box c.1 c.2 r.
Proof.
  intros (a1 & a2 & a3 & a4 & E & [_ H1] & [_ H2] & [_ H3] & [_ H4]) Hc.
  assert (Hc1 : c.1 ∈ coords.*1) by (apply list_elem_of_fmap; eauto).
  assert (Hc2 : c.2 ∈ coords.*2) by (apply list_elem_of_fmap; eauto).
  exists a1, a2, a3, a4. split; [exact E|].
  repeat split; [apply H1 | apply (H2 _ Hc1) | apply H3 | apply (H4 _ Hc2)]; assumption.
Qed.

Lemma rows_of_addresses_has_table (fs : filesystem) (q : pystr) :
  rows_of addresses fs q <> [] -> has_table addresses fs q.
Proof.
  unfold rows_of, read_db, has_table, table_at.
  destruct (fs !! q) as [d|]; cbn; [|congruence].
  destruct (addresses d); cbn; [eauto | congruence].
Qed.

Section ReverseResolve.

Variable clk : nat -> pystr.
Variables country region : pystr.
Variable addrs : address_dict.
Variable nodes_dict : gmap Z (Q * Q).
Variable fs : filesystem.

Local Abbreviation country_dir := (path_join RESULTS_FOLDERPATH country).
Local Abbreviation output_dir := (run_output_dir country region).
Local Abbreviation fs' := (ingest clk country region addrs nodes_dict fs).
Local Abbreviation fs1 :=
  (process_addresses_to_db clk 0 addrs nodes_dict (run_output_dir country region) fs).
Local Abbreviation new_rows := (run_locality_rows clk country region addrs nodes_dict fs).

(** X8.  After a run into an index whose global, country and region
    inventories held no row for it, the reverse lookup of the coordinate of
    any address row that lies beneath a row of the region inventory succeeds,
    and names the country and the region of the run. *)
Theorem stored_point_reverse_resolves (lrow : inventory_row) (row : address_row) :
  rows_of countries fs (inventory_path RESULTS_FOLDERPATH) = [] ->
  rows_of regions fs (inventory_path country_dir) = [] ->
  rows_of localities fs (inventory_path output_dir) = [] ->
  lrow ∈ rows_of localities fs' (inventory_path output_dir) ->
  row ∈ rows_of addresses fs' (row_path lrow) ->
  exists a,
    get_address fs' (latitude row) (longitude row) = Return (Some a, str "OK - Address found.")
    /\ a_country a = country /\ a_region a = region.
Proof.
  intros H0c H0r H0l Hl Hrow.
  rewrite ingest_localities, decide_True, H0l in Hl by reflexivity. cbn [app] in Hl.
  set (lat := latitude row). set (lon := longitude row).
  assert (Hpt : (lat, lon) ∈ table_coordinates fs' (row_path lrow)).
  { unfold table_coordinates. apply list_elem_of_fmap. now exists row. }
  (* the boxes of the rows the run wrote contain the point *)
  pose proof (new_rows_exact clk country region addrs nodes_dict fs lrow Hl) as Henv.
  pose proof (envelope_in_box _ _ _ Henv Hpt) as Hbox. cbn [fst snd] in Hbox.
  set (C := new_rows ≫= (fun r => table_coordinates fs' (row_path r))).
  assert (HC : (lat, lon) ∈ C) by (apply list_elem_of_bind; eauto).
  set (B := run_region_bounds clk country region addrs nodes_dict fs).
  assert (HB : envelope C B).
  { apply envelope_consistent. split; [|intros E; rewrite E in HC; inversion HC].
    subst B. unfold run_region_bounds. rewrite H0l. cbn [app].
    apply consistent_of_exact_rows. apply new_rows_exact. }
  assert (Hrb : is_Some (bounds_min_lat B)).
  { destruct HB as (a1 & a2 & a3 & a4 & -> & _). cbn. eauto. }
  assert (HR : run_region_rows clk country region addrs nodes_dict fs
               = [row_of_bounds region output_dir B]).
  { unfold run_region_rows. fold B. now destruct Hrb as [m ->]. }
  assert (HBc : run_country_bounds clk country region addrs nodes_dict fs = B).
  { unfold run_country_bounds. rewrite H0r, HR. cbn [app]. apply select_single_row. }
  assert (HCr : run_country_rows clk country region addrs nodes_dict fs
                = [row_of_bounds country country_dir B]).
  { unfold run_country_rows. rewrite HR, HBc. now destruct Hrb as [m ->]. }
  assert (Hin : forall name path, in_box lat lon (row_of_bounds name path B)).
  { intros name path.
    apply (envelope_in_box C (row_of_bounds name path B) (lat, lon)); [|assumption].
    now rewrite row_bounds_of_bounds. }
  (* the locality found and its table *)
  destruct (first_match_exists (box_contains lat lon) new_rows lrow Hl) as (l & Hfl);
    [now apply box_contains_in_box|].
  apply (first_match_ext _ (in_box lat lon)) in Hfl; [|intros y; apply box_contains_in_box].
  destruct (first_match_elem _ _ _ Hfl) as [Hlin _].
  destruct (locality_rows_elem _ _ _ _ _ _ Hlin) as (_ & _ & _ & _ & _ & _ & _ & Hne).
  rewrite <- ingest_addresses_processed in Hne.
  destruct (order_by_limit_1_least (distance lat lon) _ Hne) as (x & Hx & _).
  apply order_by_limit_1_first in Hx.
  eexists. split; [|split; cycle 1].
  - apply get_address_steps. split; [reflexivity|].
    exists [row_of_bounds country country_dir B], (row_of_bounds country country_dir B),
           [row_of_bounds region output_dir B], (row_of_bounds region output_dir B),
           new_rows, l, (rows_of addresses fs' (row_path l)), x.
    rewrite !row_path_of_bounds.
    split.
    { rewrite table_at_rows_of by (apply ingest_has_countries; rewrite HCr; discriminate).
      now rewrite ingest_countries, decide_True, H0c, HCr. }
    split; [now apply first_match_single|].
    split.
    { rewrite table_at_rows_of by (apply ingest_has_regions; rewrite HR; discriminate).
      now rewrite ingest_regions, decide_True, H0r, HR. }
    split; [now apply first_match_single|].
    split.
    { rewrite table_at_rows_of by apply ingest_has_localities.
      now rewrite ingest_localities, decide_True, H0l. }
    split; [assumption|].
    split; [now apply table_at_rows_of, rows_of_addresses_has_table|].
    split; [|reflexivity].
    revert Hx. apply first_match_ext. intros y; split; intros H r' Hr';
      specialize (H r' Hr'); now rewrite ?distance_is_squared_planar in *.
  - cbn [a_region]. apply row_name_of_bounds.
  - cbn [a_country]. apply row_name_of_bounds.
Qed.

Lemma ingest_keeps_table {R} (tbl : database -> option (list R)) (q : pystr) :
  (forall t d, is_Some (tbl d) -> is_Some (tbl (set_addresses t d))) ->
  (forall t d, is_Some (tbl d) -> is_Some (tbl (set_localities t d))) ->
  (forall t d, is_Some (tbl d) -> is_Some (tbl (set_regions t d))) ->
  (forall t d, is_Some (tbl d) -> is_Some (tbl (set_countries t d))) ->
  has_table tbl fs q -> has_table tbl fs' q.
Proof.
  intros Ha Hl Hr Hc H. unfold ingest; cbv zeta.
  repeat match goal with |- context [match bounds_min_lat ?b with _ => _ end] =>
    destruct (bounds_min_lat b) end;
  repeat first
    [ apply update_global_inventory_has_table; [exact Hc|]
    | apply update_country_inventory_has_table; [exact Hr|]
    | apply create_inventory_db_has_table; [exact Hl|]
    | apply process_addresses_has_table; [exact Ha|] ];
  exact H.
Qed.

(** X9.  A run never takes a row away and never rewrites one: in every file,
    each of the four tables keeps the rows it had, in place, as a prefix of
    its rows after the run, and a table that exists still exists; the
    inventories of other regions and countries keep exactly their rows. *)
Theorem run_is_append_only (q : pystr) :
  (rows_of addresses fs q `prefix_of` rows_of addresses fs' q
   /\ rows_of localities fs q `prefix_of` rows_of localities fs' q
   /\ rows_of regions fs q `prefix_of` rows_of regions fs' q
   /\ rows_of countries fs q `prefix_of` rows_of countries fs' q)
  /\ ((has_table addresses fs q -> has_table addresses fs' q)
      /\ (has_table localities fs q -> has_table localities fs' q)
      /\ (has_table regions fs q -> has_table regions fs' q)
      /\ (has_table countries fs q -> has_table countries fs' q))
  /\ (q <> inventory_path output_dir -> rows_of localities fs' q = rows_of localities fs q)
  /\ (q <> inventory_path country_dir -> rows_of regions fs' q = rows_of regions fs q)
  /\ (q <> inventory_path RESULTS_FOLDERPATH ->
      rows_of countries fs' q = rows_of countries fs q).
Proof.
  split; [|split].
  - rewrite ingest_addresses, ingest_localities, ingest_regions, ingest_countries.
    repeat split; apply prefix_app_r; reflexivity.
  - repeat split; apply ingest_keeps_table; intros t d H; cbn; eauto.
  - rewrite ingest_localities, ingest_regions, ingest_countries.
    repeat split; intros Hq; rewrite decide_False by congruence; apply app_nil_r.
Qed.

End ReverseResolve.

(** ** The slug of a slug *)

Lemma slug_spec_alphabet (s : pystr) :
  Forall (fun c => in_a_z_underscore c = true) (slug_spec s).
Proof using Type.
  unfold slug_spec. apply Forall_forall. intros c Hc.
  apply list_elem_of_In, filter_In in Hc. exact (proj2 Hc).
Qed.

Lemma slug_spec_fixed (u : pystr) :
  lower_on_ascii -> Forall (fun c => in_a_z_underscore c = true) u -> slug_spec u = u.
Proof.
  intros Hlow Hu. unfold slug_spec. rewrite Hlow.
  - unfold ascii_lower. induction Hu as [|c u Hc _ IH]; [reflexivity|].
    cbn [map List.filter]. unfold in_a_z_underscore in Hc.
    assert (Hcases : (97 <= c <= 122 \/ c = 95)%N).
    { apply orb_true_iff in Hc as [[H1 H2]%andb_true_iff | H3].
      - left. split; [now apply N.leb_le | now apply N.leb_le].
      - right. now apply N.eqb_eq. }
    assert (E1 : sqlite_lower_char c = c).
    { unfold sqlite_lower_char.
      destruct (N.leb_spec 65 c), (N.leb_spec c 90); cbn; try reflexivity; lia. }
    assert (E2 : transliterate c = c).
    { unfold transliterate.
      repeat match goal with
             | |- context [N.eqb c ?k] => destruct (N.eqb_spec c k) as [?|?]; [lia|]
             end. reflexivity. }
    assert (E3 : space_to_underscore c = c).
    { unfold space_to_underscore. destruct (N.eqb_spec c 32); [lia | reflexivity]. }
    rewrite E1, E2, E3.
    replace (in_a_z_underscore c) with true
      by (symmetry; unfold in_a_z_underscore; exact Hc).
    now rewrite IH.
  - eapply Forall_impl; [exact Hu|]. intros c Hc. unfold in_a_z_underscore in Hc.
    apply orb_true_iff in Hc as [[H1 H2]%andb_true_iff | H3].
    + apply N.leb_le in H2. lia.
    + apply N.eqb_eq in H3. lia.
Qed.

(** X10.  The slug of a name that needs no placeholder is a fixed point of
    the slug function, at every clock reading, once [str.lower] folds ASCII
    text as Python's does: a file name produced for such a name is the file
    name produced for itself. *)
Theorem slug_idempotent (dt dt' s : pystr) :
  lower_on_ascii -> s <> [] -> slug_spec s <> [] ->
  slug dt' (slug dt s) = slug dt s.
Proof.
  intros Hlow Hs Hf. rewrite (slug_regular dt s Hs Hf).
  pose proof (slug_spec_fixed (slug_spec s) Hlow (slug_spec_alphabet s)) as Hfix.
  rewrite (slug_regular dt' (slug_spec s)); [exact Hfix | assumption | now rewrite Hfix].
Qed.

(** ** The URL of the extract *)

Lemma remove_from_elem (old : pystr) (skip : nat) (s : pystr) (x : N) :
  x ∈ remove_from old skip s -> x ∈ s.
Proof.
  revert skip. induction s as [|c s IH]; intros skip; cbn [remove_from]; [auto|].
  destruct skip as [|n].
  - destruct (startswith (c :: s) old).
    + intros H. right. eapply IH, H.
    + intros [->|H]%elem_of_cons; [left | right; eapply IH, H].
  - intros H. right. eapply IH, H.
Qed.

Lemma join_head_no_sep (sep : N) (p : pystr) (ps : list pystr) :
  exists tail, join [sep] (p :: ps) = p ++ tail /\ (tail = [] \/ head tail = Some sep).
Proof.
  destruct ps as [|q ps].
  - exists []. cbn. rewrite app_nil_r. auto.
  - exists ([sep] ++ join [sep] (q :: ps)). rewrite join_cons. auto.
Qed.

Lemma split_sep_cons (sep : N) (t : pystr) : split sep (sep :: t) = [] :: split sep t.
Proof. cbn [split]. now rewrite N.eqb_refl. Qed.

Lemma split_app_no_sep (sep : N) (p tail : pystr) :
  sep ∉ p -> tail = [] \/ head tail = Some sep ->
  exists rest, split sep (p ++ tail) = p :: rest.
Proof.
  intros Hp Htail. induction p as [|c p IH].
  - destruct Htail as [->|Ht].
    + now exists [].
    + destruct tail as [|c t]; [discriminate|]. injection Ht as ->.
      exists (split sep t). cbn [app]. rewrite split_sep_cons. reflexivity.
  - destruct IH as [rest IH]; [intros H; apply Hp; now right|].
    exists rest. cbn [app split]. rewrite IH.
    destruct (N.eqb_spec c sep) as [->|Hne]; [exfalso; apply Hp; left | reflexivity].
Qed.

Lemma split_app_sep (sep : N) (p t : pystr) :
  sep ∉ p -> split sep (p ++ sep :: t) = p :: split sep t.
Proof.
  intros Hp. induction p as [|c p IH]; [apply split_sep_cons|].
  cbn [app split]. rewrite IH by (intros H; apply Hp; now right).
  destruct (N.eqb_spec c sep) as [->|Hne]; [exfalso; apply Hp; left | reflexivity].
Qed.

Lemma europe_no_sep : 47%N ∉ str "europe".
Proof. apply (bool_decide_unpack _). vm_compute. exact I. Qed.

Lemma suffix_no_sep : 47%N ∉ str "-latest.osm.pbf".
Proof. apply (bool_decide_unpack _). vm_compute. exact I. Qed.

Lemma parse_url_outcomes (path : pystr) :
  parse_country_and_region_from_url path = SysExit 1
  \/ exists country region,
       parse_country_and_region_from_url path = Return (country, region).
Proof.
  unfold parse_country_and_region_from_url.
  destruct (split 47%N path) as [|p0 [|e [|c [|rp rest]]]]; auto.
  destruct (bool_decide _); eauto.
Qed.

Lemma parse_url_steps (path country region : pystr) :
  parse_country_and_region_from_url path = Return (country, region)
  <-> exists p0 rp tail,
        path = p0 ++ str "/europe/" ++ country ++ [47%N] ++ rp ++ tail
        /\ (47%N ∉ p0) /\ (47%N ∉ country) /\ (47%N ∉ rp)
        /\ (tail = [] \/ head tail = Some 47%N)
        /\ region = remove_all (str "-latest.osm.pbf") rp.
Proof.
  unfold parse_country_and_region_from_url. split.
  - pose proof (join_split 47%N path) as Hj. pose proof (split_no_sep 47%N path) as Hn.
    destruct (split 47%N path) as [|p0 [|e [|c [|rp rest]]]]; try discriminate.
    destruct (bool_decide_reflect (e = str "europe")) as [->|]; [|discriminate].
    intros [= <- <-].
    apply Forall_cons in Hn as [H0 Hn]. apply Forall_cons in Hn as [_ Hn].
    apply Forall_cons in Hn as [Hc Hn]. apply Forall_cons in Hn as [Hrp _].
    destruct (join_head_no_sep 47%N rp rest) as (tail & Ht & Htail).
    exists p0, rp, tail. repeat split; try assumption.
    rewrite <- Hj, !join_cons, Ht. reflexivity.
  - intros (p0 & rp & tail & -> & H0 & Hc & Hrp & Htail & ->).
    change (str "/europe/") with (47%N :: str "europe" ++ [47%N]).
    cbn [app]. rewrite <- !app_assoc. cbn [app].
    rewrite (split_app_sep 47%N p0) by assumption.
    rewrite (split_app_sep 47%N (str "europe")) by apply europe_no_sep.
    rewrite (split_app_sep 47%N country) by assumption.
    destruct (split_app_no_sep 47%N rp tail Hrp Htail) as [rest ->].
    now rewrite bool_decide_eq_true_2.
Qed.

(** X11.  [parse_country_and_region_from_url] returns a pair exactly for a
    path of the shape [p0/europe/<country>/<file>] or
    [p0/europe/<country>/<file>/...], the three parts free of ['/'], and
    then the country is the third part and the region is the fourth with
    the occurrences of ["-latest.osm.pbf"] dropped; every other path ends
    the program with exit code 1.  Neither name holds a ['/']. *)
Theorem parse_country_and_region_shape (path : pystr) :
  (forall country region,
      parse_country_and_region_from_url path = Return (country, region)
      <-> exists p0 rp tail,
            path = p0 ++ str "/europe/" ++ country ++ [47%N] ++ rp ++ tail
            /\ (47%N ∉ p0) /\ (47%N ∉ country) /\ (47%N ∉ rp)
            /\ (tail = [] \/ head tail = Some 47%N)
            /\ region = remove_all (str "-latest.osm.pbf") rp)
  /\ (parse_country_and_region_from_url path = SysExit 1
      \/ exists country region,
           parse_country_and_region_from_url path = Return (country, region)
           /\ (47%N ∉ country) /\ (47%N ∉ region)).
Proof.
  split; [intros country region; apply parse_url_steps|].
  destruct (parse_url_outcomes path) as [E|(c & r & E)]; [now left | right].
  exists c, r. split; [assumption|].
  apply parse_url_steps in E as (p0 & rp & tail & _ & _ & Hc & Hrp & _ & ->).
  split; [assumption|]. intros H. apply Hrp. eapply remove_from_elem, H.
Qed.

Lemma no_match_before_dot (m : pystr) :
  m <> [] -> 46%N ∉ m -> startswith (m ++ str "-latest.osm.pbf") (str "-latest.osm.pbf") = false.
Proof.
  intros Hm Hdot. unfold startswith. apply bool_decide_eq_false. intros E.
  assert (H7 : (m ++ str "-latest.osm.pbf") !! 7%nat = Some 46%N).
  { rewrite <- (lookup_take_lt _ (length (str "-latest.osm.pbf")) 7) by (vm_compute; lia).
    now rewrite E. }
  destruct (decide (7 < length m)%nat) as [Hlt|Hge].
  - rewrite lookup_app_l in H7 by assumption.
    apply Hdot. eapply list_elem_of_lookup_2, H7.
  - rewrite lookup_app_r in H7 by lia.
    assert (Hlen : (0 < length m)%nat) by (destruct m; [congruence | cbn; lia]).
    assert (Hk : (7 - length m < 7)%nat) by lia.
    revert H7 Hk. generalize (7 - length m)%nat. intros k H7 Hk.
    do 7 (destruct k as [|k]; [discriminate|]). lia.
Qed.

Lemma remove_suffix_after_name (name : pystr) :
  46%N ∉ name ->
  remove_all (str "-latest.osm.pbf") (name ++ str "-latest.osm.pbf") = name.
Proof.
  unfold remove_all. induction name as [|c name IH]; intros Hdot; [reflexivity|].
  cbn [app remove_from].
  pose proof (no_match_before_dot (c :: name)) as Hno. cbn [app] in Hno.
  rewrite Hno by (assumption || discriminate).
  rewrite IH; [reflexivity|]. intros H. apply Hdot. now right.
Qed.

(** X12.  On the path of a Geofabrik extract,
    [/europe/<country>/<name>-latest.osm.pbf] with a country free of ['/']
    and a name free of ['/'] and ['.'], the function returns the country and
    the name. *)
Theorem parse_geofabrik_path (country name : pystr) :
  47%N ∉ country -> 47%N ∉ name -> 46%N ∉ name ->
  parse_country_and_region_from_url
    (str "/europe/" ++ country ++ [47%N] ++ name ++ str "-latest.osm.pbf")
  = Return (country, name).
Proof.
  intros Hc Hn Hdot. apply parse_url_steps.
  exists [], (name ++ str "-latest.osm.pbf"), [].
  rewrite app_nil_r, remove_suffix_after_name by assumption.
  repeat split; auto; [inversion 1|].
  intros [H|H]%elem_of_app; [now apply Hn | now apply suffix_no_sep].
Qed.

End Geocoder.

(** * Closed instances

    On the ASCII inputs used here [ascii_lower] and [ascii_isspace] are what
    [str.lower] and [str.isspace] compute. *)

Example split_keeps_empty_fields :
  split 44%N (str "a,,b") = [str "a"; []; str "b"] /\ split 44%N [] = [[]].
Proof. split; reflexivity. Qed.

Example strip_both_ends : strip ascii_isspace (str "  Main St ") = str "Main St".
Proof. reflexivity. Qed.

Example path_join_cases :
  path_join (str "results") (str "poland") = str "results/poland"
  /\ path_join (str "results/") (str "poland") = str "results/poland"
  /\ path_join [] (str "poland") = str "poland"
  /\ path_join (str "results") (str "/tmp") = str "/tmp".
Proof. repeat split; reflexivity. Qed.

Example slug_examples :
  convert_polish_locality_name_to_restricted_in_filesystem ascii_lower t0 (str "Nowy Dwor")
  = str "nowy_dwor"
  /\ convert_polish_locality_name_to_restricted_in_filesystem ascii_lower t0
       (str "Bielsko-Biala 2") = str "bielskobiala_"
  /\ convert_polish_locality_name_to_restricted_in_filesystem ascii_lower t0 (str "123")
     = str "noname_20250101_120000".
Proof. repeat split; reflexivity. Qed.

(** A run whose clock ticks between the two passes: the locality ["123"] is
    written to [noname_<t0>.sqlite], looked for under [noname_<t1>.sqlite],
    and gets no inventory row; the locality ["lodz"] does. *)
Example placeholder_locality_without_row :
  map row_name
    (rows_of localities
       (ingest ascii_lower (fun k => if (k <? 2)%nat then t0 else t1)
          (str "poland") (str "lodzkie")
          [(str "123", [(str "Zielona", str "3", [3]%Z)]);
           (str "lodz", [(str "Piotrkowska", str "1", [1]%Z)])]
          sample_nodes ∅)
       (str "results/poland/lodzkie/inventory.sqlite"))
  = [str "lodz"].
Proof. vm_compute. reflexivity. Qed.

(** C1 fails on the code.  [create_inventory_db] asks the slug function
    again for the file name that [process_addresses_to_db] wrote to, and for
    a name that needs the placeholder the answer follows the clock.  In one
    run whose clock moves on between the two passes, the point (50, 19) of
    the locality ["123"] is stored under the region directory, the locality
    gets no row, and the region row and the country row that are written
    carry the box of (52, 21) alone.  In a second run of a region, the point
    (52, 21) lands in the table that the row of the first run points to, no
    new locality row is written, and the region row that is written carries
    the box of (50, 19) alone: it is not the envelope of the points
    reachable beneath it. *)
Lemma placeholder_breaks_envelope :
  (let run := ingest ascii_lower (clock_ticks_after 2) (str "poland") (str "lodzkie")
                (nameless_first ++ [(str "lodz", [(str "Piotrkowska", str "1", [1]%Z)])])
                sample_nodes ∅ in
   map (fun r => (latitude r, longitude r))
     (rows_of addresses run
        (str "results/poland/lodzkie/localities/noname_20250101_120000.sqlite"))
   = [(50 # 1, 19 # 1)]
   /\ map row_name (rows_of localities run (str "results/poland/lodzkie/inventory.sqlite"))
      = [str "lodz"]
   /\ map row_bounds (rows_of regions run (str "results/poland/inventory.sqlite"))
      = [(Some (52 # 1), Some (52 # 1), Some (21 # 1), Some (21 # 1))]
   /\ map row_bounds (rows_of countries run (str "results/inventory.sqlite"))
      = [(Some (52 # 1), Some (52 # 1), Some (21 # 1), Some (21 # 1))])
  /\ (let once := ingest ascii_lower clock_fixed (str "poland") (str "lodzkie")
                    nameless_first sample_nodes ∅ in
      let twice := ingest ascii_lower (clock_ticks_after 1) (str "poland") (str "lodzkie")
                     nameless_second sample_nodes once in
      exists r,
        rows_of regions twice (str "results/poland/inventory.sqlite")
        = rows_of regions once (str "results/poland/inventory.sqlite") ++ [r]
        /\ row_name r = str "lodzkie"
        /\ row_bounds r = (Some (50 # 1), Some (50 # 1), Some (19 # 1), Some (19 # 1))
        /\ region_coordinates twice (row_path r) = [(50 # 1, 19 # 1); (52 # 1, 21 # 1)]
        /\ ~ envelope (region_coordinates twice (row_path r)) (row_bounds r)).
Proof.
  split; [vm_compute; repeat split; reflexivity|].
  intros once twice.
  eexists. split; [vm_compute; reflexivity|].
  split; [reflexivity|]. split; [reflexivity|]. split; [vm_compute; reflexivity|].
  intros (a1 & a2 & a3 & a4 & E & _ & [_ Hmax] & _).
  injection E as _ <- _ _.
  assert (Hin : (52 # 1)%Q ∈ (region_coordinates twice
                                (str "results/poland/lodzkie")).*1).
  { vm_compute. right. left. }
  specialize (Hmax _ Hin). vm_compute in Hmax. now apply Hmax.
Qed.

Lemma slug_functional_correctness_witness :
  sample_name <> []
  /\ slug_spec ascii_lower sample_name <> []
  /\ convert_polish_locality_name_to_restricted_in_filesystem ascii_lower t0 sample_name
     = str "nowy_lodz_".
Proof.
  assert (H1 : sample_name <> []) by discriminate.
  assert (H2 : slug_spec ascii_lower sample_name <> []) by (vm_compute; discriminate).
  split; [exact H1|]. split; [exact H2|].
  rewrite (proj1 (proj2 (slug_functional_correctness ascii_lower t0 sample_name)) H1 H2).
  reflexivity.
Defined.

(** C8 as stated fails: the empty name gets two different slugs at two clock
    readings. *)
Lemma slug_placeholder_follows_clock :
  convert_polish_locality_name_to_restricted_in_filesystem ascii_lower t0 []
  <> convert_polish_locality_name_to_restricted_in_filesystem ascii_lower t1 [].
Proof. vm_compute. discriminate. Qed.

Lemma slug_determinism_witness :
  sample_name <> []
  /\ slug_spec ascii_lower sample_name <> []
  /\ convert_polish_locality_name_to_restricted_in_filesystem ascii_lower t0 sample_name
     = convert_polish_locality_name_to_restricted_in_filesystem ascii_lower t1 sample_name.
Proof.
  assert (H1 : sample_name <> []) by discriminate.
  assert (H2 : slug_spec ascii_lower sample_name <> []) by (vm_compute; discriminate).
  split; [exact H1|]. split; [exact H2|].
  exact (proj1 (slug_determinism ascii_lower t0 t1 sample_name) H1 H2).
Defined.





Lemma inventory_rows_are_envelopes_witness :
  let once := ingest ascii_lower clock_fixed (str "poland") (str "lodzkie")
                sample_addresses sample_nodes ∅ in
  let twice := ingest ascii_lower clock_fixed (str "poland") (str "lodzkie")
                 sample_addresses sample_nodes once in
  length (rows_of localities once
            (inventory_path (run_output_dir (str "poland") (str "lodzkie")))) = 2%nat
  /\ file_names_settled ascii_lower clock_fixed (str "poland") (str "lodzkie")
       sample_addresses once
  /\ consistent (region_coordinates once (run_output_dir (str "poland") (str "lodzkie")))
       (select_inventory_bounds
          (rows_of localities once
             (inventory_path (run_output_dir (str "poland") (str "lodzkie")))))
  /\ consistent (country_coordinates once (path_join RESULTS_FOLDERPATH (str "poland")))
       (select_inventory_bounds
          (rows_of regions once (inventory_path (path_join RESULTS_FOLDERPATH (str "poland")))))
  /\ exists new,
       rows_of regions twice (inventory_path (path_join RESULTS_FOLDERPATH (str "poland")))
       = rows_of regions once (inventory_path (path_join RESULTS_FOLDERPATH (str "poland")))
         ++ new
       /\ (length new <= 1)%nat
       /\ forall r, r ∈ new ->
            row_name r = str "lodzkie"
            /\ envelope (region_coordinates twice (row_path r)) (row_bounds r).
Proof.
  intros once twice.
  assert (H1 : forall fs, file_names_settled ascii_lower clock_fixed (str "poland")
                            (str "lodzkie") sample_addresses fs)
    by (intros fs i name las _; left; reflexivity).
  assert (H2 : consistent (region_coordinates ∅ (run_output_dir (str "poland") (str "lodzkie")))
                 (select_inventory_bounds
                    (rows_of localities ∅
                       (inventory_path (run_output_dir (str "poland") (str "lodzkie"))))))
    by (vm_compute; repeat split).
  assert (H3 : consistent (country_coordinates ∅ (path_join RESULTS_FOLDERPATH (str "poland")))
                 (select_inventory_bounds
                    (rows_of regions ∅
                       (inventory_path (path_join RESULTS_FOLDERPATH (str "poland"))))))
    by (vm_compute; repeat split).
  destruct (inventory_rows_are_envelopes ascii_lower clock_fixed (str "poland") (str "lodzkie")
              sample_addresses sample_nodes ∅ (H1 ∅) H2 H3) as (_ & _ & _ & H2' & H3').
  split; [vm_compute; reflexivity|].
  split; [exact (H1 once)|]. split; [exact H2'|]. split; [exact H3'|].
  exact (proj1 (proj2
           (inventory_rows_are_envelopes ascii_lower clock_fixed (str "poland") (str "lodzkie")
              sample_addresses sample_nodes once (H1 once) H2' H3'))).
Defined.

(** C2 fails on the code: ingesting the same region twice leaves two rows of
    its name in the country inventory, and two rows of the country's name in
    the global inventory; [INSERT OR REPLACE] replaces nothing in a table
    without a key. *)
Lemma reingestion_duplicates_rows :
  let once := ingest ascii_lower clock_fixed (str "poland") (str "lodzkie")
                sample_addresses sample_nodes ∅ in
  let twice := ingest ascii_lower clock_fixed (str "poland") (str "lodzkie")
                 sample_addresses sample_nodes once in
  map row_name (rows_of regions twice (str "results/poland/inventory.sqlite"))
  = [str "lodzkie"; str "lodzkie"]
  /\ map row_name (rows_of countries twice (str "results/inventory.sqlite"))
     = [str "poland"; str "poland"].
Proof. vm_compute. split; reflexivity. Qed.



(** Why the earlier rows matter: the second region also has a locality named
    ["Lodz"]; the scan stops at the first region that lists that name, and
    the address of the second region is not found. *)
Example earlier_region_captures_locality :
  let fs1 := ingest ascii_lower clock_fixed (str "poland") (str "lodzkie")
               sample_addresses sample_nodes ∅ in
  let fs2 := ingest ascii_lower clock_fixed (str "poland") (str "mazowieckie")
               second_region_addresses sample_nodes fs1 in
  map (fun r => (street r, housenumber r))
    (rows_of addresses fs2 (str "results/poland/mazowieckie/localities/lodz.sqlite"))
  = [(str "Nowa", str "2")]
  /\ get_coordinates ascii_lower ascii_isspace fs2 (str "poland,Lodz,Nowa,2")
     = Return (None, str "ER - Coordinates not found for given address.").
Proof. vm_compute. split; reflexivity. Qed.


(** ** The two passes on the sample extract *)

Example sample_first_pass :
  AddressCollector.addresses (collect_addresses sample_ways)
  = [(str "Lodz", [(str "Piotrkowska", str "1", [1; 2]%Z);
                   (str "Narutowicza", str "5", [7; 2]%Z)]);
     (str "Pabianice", [(str "Zamkowa", str "3", [3]%Z)])].
Proof. vm_compute. reflexivity. Qed.

Lemma collected_only_specific_locality_witness :
  str "Lodz" ∈ (AddressCollector.addresses
                  (AddressCollector.apply_file
                     (AddressCollector.init (Some (str "Lodz"))) sample_ways)).*1
  /\ length (AddressCollector.addresses
               (AddressCollector.apply_file
                  (AddressCollector.init (Some (str "Lodz"))) sample_ways)) = 1%nat.
Proof.
  assert (H : str "Lodz" ∈ (AddressCollector.addresses
                              (AddressCollector.apply_file
                                 (AddressCollector.init (Some (str "Lodz"))) sample_ways)).*1).
  { vm_compute. left. }
  split; [exact H|].
  pose proof (collected_only_specific_locality 76%N (str "odz") sample_ways (str "Lodz") H).
  vm_compute. reflexivity.
Defined.

Lemma collector_counters_witness :
  AddressCollector.processed_ways
    (AddressCollector.apply_file (AddressCollector.init None) sample_ways) = 4%nat.
Proof.
  exact (proj2 (proj2 (collector_counters None sample_ways)) eq_refl).
Defined.

Lemma address_resolved_from_extract_witness :
  (str "Lodz", [(str "Piotrkowska", str "1", [1; 2]%Z);
                (str "Narutowicza", str "5", [7; 2]%Z)])
    ∈ AddressCollector.addresses (collect_addresses sample_ways)
  /\ (str "Narutowicza", str "5", [7; 2]%Z)
       ∈ [(str "Piotrkowska", str "1", [1; 2]%Z); (str "Narutowicza", str "5", [7; 2]%Z)]
  /\ insert_address
       (NodeCollector.nodes_dict (collect_nodes sample_ways sample_extract_nodes)) []
       (str "Narutowicza", str "5", [7; 2]%Z) = [].
Proof.
  assert (H1 : (str "Lodz", [(str "Piotrkowska", str "1", [1; 2]%Z);
                             (str "Narutowicza", str "5", [7; 2]%Z)])
                 ∈ AddressCollector.addresses (collect_addresses sample_ways)).
  { vm_compute. left. }
  assert (H2 : (str "Narutowicza", str "5", [7; 2]%Z)
                 ∈ [(str "Piotrkowska", str "1", [1; 2]%Z);
                    (str "Narutowicza", str "5", [7; 2]%Z)]).
  { right. left. }
  split; [exact H1|]. split; [exact H2|].
  apply (proj2 (address_resolved_from_extract sample_ways sample_extract_nodes _ _ _ _ _ []
                  H1 H2)).
  intros ref n Href Hn Hid.
  repeat (apply elem_of_cons in Hn as [->|Hn]; [try reflexivity; exfalso; revert Href;
    cbn [n_id] in Hid; subst ref; intros Href;
    repeat (apply elem_of_cons in Href as [Href|Href]; [discriminate|]); inversion Href|]).
  inversion Hn.
Defined.

(** ** A run and the reverse lookup, on the sample run *)

Lemma stored_point_reverse_resolves_witness :
  exists a,
    get_address
      (ingest ascii_lower clock_fixed (str "poland") (str "lodzkie")
         sample_addresses sample_nodes ∅) (106 # 2) (44 # 2)
    = Return (Some a, str "OK - Address found.")
    /\ a_country a = str "poland" /\ a_region a = str "lodzkie".
Proof.
  set (fs' := ingest ascii_lower clock_fixed (str "poland") (str "lodzkie")
                sample_addresses sample_nodes ∅).
  assert (Hl : exists lrow,
             lrow ∈ rows_of localities fs'
                      (inventory_path (run_output_dir (str "poland") (str "lodzkie")))
             /\ AddressRow (str "Piotrkowska") (str "1") (106 # 2) (44 # 2)
                  ∈ rows_of addresses fs' (row_path lrow)).
  { eexists. split; [vm_compute; left | vm_compute; left]. }
  destruct Hl as (lrow & Hl & Hrow).
  exact (stored_point_reverse_resolves ascii_lower clock_fixed (str "poland") (str "lodzkie")
           sample_addresses sample_nodes ∅ lrow
           (AddressRow (str "Piotrkowska") (str "1") (106 # 2) (44 # 2))
           eq_refl eq_refl eq_refl Hl Hrow).
Defined.

Lemma run_is_append_only_witness :
  str "results/germany/inventory.sqlite" <> inventory_path (path_join RESULTS_FOLDERPATH (str "poland"))
  /\ rows_of regions
       (ingest ascii_lower clock_fixed (str "poland") (str "lodzkie")
          sample_addresses sample_nodes sample_fs)
       (str "results/germany/inventory.sqlite")
     = rows_of regions sample_fs (str "results/germany/inventory.sqlite").
Proof.
  assert (H : str "results/germany/inventory.sqlite"
              <> inventory_path (path_join RESULTS_FOLDERPATH (str "poland"))).
  { vm_compute. discriminate. }
  split; [exact H|].
  exact (proj1 (proj2 (proj2 (proj2 (run_is_append_only ascii_lower clock_fixed
           (str "poland") (str "lodzkie") sample_addresses sample_nodes sample_fs
           (str "results/germany/inventory.sqlite"))))) H).
Defined.

(** ** The slug of a slug, the path of an extract *)

(** A placeholder is not a fixed point: its digits are dropped. *)
Example placeholder_slug_not_fixed :
  convert_polish_locality_name_to_restricted_in_filesystem ascii_lower t1
    (convert_polish_locality_name_to_restricted_in_filesystem ascii_lower t0 [])
  = str "noname__".
Proof. vm_compute. reflexivity. Qed.

Lemma slug_idempotent_witness :
  lower_on_ascii ascii_lower
  /\ sample_name <> []
  /\ slug_spec ascii_lower sample_name <> []
  /\ convert_polish_locality_name_to_restricted_in_filesystem ascii_lower t1
       (convert_polish_locality_name_to_restricted_in_filesystem ascii_lower t0 sample_name)
     = convert_polish_locality_name_to_restricted_in_filesystem ascii_lower t0 sample_name.
Proof.
  assert (H0 : lower_on_ascii ascii_lower) by (intros s _; reflexivity).
  assert (H1 : sample_name <> []) by discriminate.
  assert (H2 : slug_spec ascii_lower sample_name <> []) by (vm_compute; discriminate).
  split; [exact H0|]. split; [exact H1|]. split; [exact H2|].
  exact (slug_idempotent ascii_lower t0 t1 sample_name H0 H1 H2).
Defined.

(** [str.replace] drops every occurrence, an occurrence that the dropping
    puts together stays; a path outside [/europe/] ends the program. *)
Example parse_url_examples :
  parse_country_and_region_from_url (str "/europe/poland/lodzkie-latest.osm.pbf")
  = Return (str "poland", str "lodzkie")
  /\ parse_country_and_region_from_url (str "/europe/poland-latest.osm.pbf") = SysExit 1
  /\ parse_country_and_region_from_url (str "/asia/japan/kanto-latest.osm.pbf") = SysExit 1
  /\ parse_country_and_region_from_url (str "/europe//x") = Return ([], str "x")
  /\ remove_all (str "ab") (str "aabbab") = str "ab".
Proof. repeat split; vm_compute; reflexivity. Qed.

Lemma parse_geofabrik_path_witness :
  (47%N ∉ str "germany") /\ (47%N ∉ str "nordrhein-westfalen")
  /\ (46%N ∉ str "nordrhein-westfalen")
  /\ parse_country_and_region_from_url
       (str "/europe/" ++ str "germany" ++ [47%N] ++ str "nordrhein-westfalen"
        ++ str "-latest.osm.pbf")
     = Return (str "germany", str "nordrhein-westfalen").
Proof.
  assert (H1 : 47%N ∉ str "germany") by (apply (bool_decide_unpack _); vm_compute; exact I).
  assert (H2 : 47%N ∉ str "nordrhein-westfalen")
    by (apply (bool_decide_unpack _); vm_compute; exact I).
  assert (H3 : 46%N ∉ str "nordrhein-westfalen")
    by (apply (bool_decide_unpack _); vm_compute; exact I).
  split; [exact H1|]. split; [exact H2|]. split; [exact H3|].
  exact (parse_geofabrik_path (str "germany") (str "nordrhein-westfalen") H1 H2 H3).
Defined.
